(** * Transactional catalog sets and versioned column segments

    A shallow embedding of [CatalogSet] (create / drop / exists / get /
    undo over pointer-linked version chains) and of the version-chain
    front end of [Segment] (conflict check, update, index scan,
    promotion to a temporary block), and the properties of the design
    document proved, or refuted and restated, on that embedding.

    Heap objects are modelled by an arena: a finite map from addresses
    to nodes, with [child]/[parent] links stored as addresses.  C++
    exceptions, failed assertions and undefined behaviour (null or
    dangling dereference, out-of-bounds read) are distinct outcomes. *)

From stdpp Require Import gmap strings list fin_maps sorting.
From Stdlib Require Import ZArith Lia.

Set Warnings "-register-all".
Local Open Scope Z_scope.

(** ** Outcomes of a call *)

Inductive exception : Type :=
| TransactionException (msg : string).

Inductive outcome (A : Type) : Type :=
| Return (a : A)           (* normal return *)
| Throw (e : exception)    (* a C++ exception leaves the function *)
| AssertionFailure         (* an [assert] does not hold *)
| Undefined                (* null / dangling dereference, out-of-bounds read *)
| OutOfFuel.               (* the loop bound of the model was reached *)

Arguments Return {A} a.
Arguments Throw {A} e.
Arguments AssertionFailure {A}.
Arguments Undefined {A}.
Arguments OutOfFuel {A}.

Definition outcome_map {A B : Type} (f : A -> B) (o : outcome A) : outcome B :=
  match o with
  | Return a => Return (f a)
  | Throw e => Throw e
  | AssertionFailure => AssertionFailure
  | Undefined => Undefined
  | OutOfFuel => OutOfFuel
  end.

(** A state-and-exception monad: a failing computation keeps the state
    it had reached when it failed. *)

Definition M (St A : Type) : Type := St -> outcome A * St.

Definition ret {St A} (a : A) : M St A := fun s => (Return a, s).
Definition throw {St A} (e : exception) : M St A := fun s => (Throw e, s).
Definition undefined {St A} : M St A := fun s => (Undefined, s).
Definition get {St} : M St St := fun s => (Return s, s).
Definition modify {St} (f : St -> St) : M St unit := fun s => (Return tt, f s).

Definition bind {St A B} (c : M St A) (k : A -> M St B) : M St B :=
  fun s =>
    match c s with
    | (Return a, s') => k a s'
    | (Throw e, s') => (Throw e, s')
    | (AssertionFailure, s') => (AssertionFailure, s')
    | (Undefined, s') => (Undefined, s')
    | (OutOfFuel, s') => (OutOfFuel, s')
    end.

(** The monad is used through stdpp's [x ← c; k] and [c;; k]. *)
#[export] Instance M_ret {St} : MRet (M St) := fun A a => ret a.
#[export] Instance M_bind {St} : MBind (M St) := fun A B k c => bind c k.

(** [keeps f c]: the computation [c] leaves the part [f] of the state
    as it found it, however it ends. *)
Definition keeps {St A B} (f : St -> B) (c : M St A) : Prop :=
  forall s, f (snd (c s)) = f s.

(** ** Catalog sets *)

Module Catalog.

(** Address of an [AbstractCatalogEntry] on the heap. *)
Abbreviation ptr := nat.

(** The fields of [AbstractCatalogEntry] that the catalog set reads or
    writes.  [child] is the owning link to the next older version,
    [parent] the raw back pointer, [set] the set the entry lives in. *)
Record AbstractCatalogEntry : Type := mkEntry {
  name : string;
  timestamp : Z;
  deleted : bool;
  child : option ptr;
  parent : option ptr;
  set : option nat;
}.

Definition with_timestamp (ts : Z) (e : AbstractCatalogEntry) :=
  mkEntry (name e) ts (deleted e) (child e) (parent e) (set e).
Definition with_child (c : option ptr) (e : AbstractCatalogEntry) :=
  mkEntry (name e) (timestamp e) (deleted e) c (parent e) (set e).
Definition with_parent (p : option ptr) (e : AbstractCatalogEntry) :=
  mkEntry (name e) (timestamp e) (deleted e) (child e) p (set e).
Definition with_set (s : option nat) (e : AbstractCatalogEntry) :=
  mkEntry (name e) (timestamp e) (deleted e) (child e) (parent e) s.

(** Modelled from the spec: the [Transaction] class, whose declaration
    is not among the embedded sources.  It carries [transaction_id],
    [start_time] and a private undo buffer, an ordered sequence of back
    pointers to version nodes. *)
Record Transaction : Type := mkTransaction {
  transaction_id : Z;
  start_time : Z;
  undo_buffer : list ptr;
}.

(** Modelled from the spec: [Transaction::PushCatalogEntry] appends the
    pointer to the undo buffer. *)
Definition PushCatalogEntry (entry : ptr) (t : Transaction) : Transaction :=
  mkTransaction (transaction_id t) (start_time t) (undo_buffer t ++ [entry]).

(** A catalog set: its own identity ([this]), the map [data] from names
    to the (possibly null) owning pointer of the newest version, and the
    heap holding the nodes the set owns. *)
Record CatalogSet : Type := mkSet {
  this : nat;
  data : gmap string (option ptr);
  heap : gmap nat AbstractCatalogEntry;
}.

Definition with_data (d : gmap string (option ptr)) (s : CatalogSet) :=
  mkSet (this s) d (heap s).
Definition with_heap (h : gmap nat AbstractCatalogEntry) (s : CatalogSet) :=
  mkSet (this s) (data s) h.

Definition empty_set (id : nat) : CatalogSet := mkSet id ∅ ∅.

(** [new]: the object is placed at an address that is not in use. *)
Definition alloc (s : CatalogSet) : ptr := fresh (dom (heap s)).

(** Destruction of an owning pointer: the node and, through its [child],
    every node it still owns are freed. *)
Fixpoint destroy (fuel : nat) (p : option ptr)
    (h : gmap nat AbstractCatalogEntry) : gmap nat AbstractCatalogEntry :=
  match p with
  | None => h
  | Some a =>
      match h !! a with
      | None => h
      | Some e =>
          match fuel with
          | O => delete a h
          | S fuel' => destroy fuel' (child e) (delete a h)
          end
      end
  end.

Section CatalogSet.

(** The first transaction id; commit timestamps lie below it.  The
    constant is declared in a header that is not embedded, so the
    development is parametric in it. *)
Variable TRANSACTION_ID_START : Z.

Abbreviation St := (CatalogSet * Transaction)%type.

(** Dereference of a node pointer. *)
Definition deref (p : ptr) : M St AbstractCatalogEntry :=
  fun s => match heap (fst s) !! p with
           | Some e => (Return e, s)
           | None => (Undefined, s)
           end.

(** Dereference of a possibly null pointer. *)
Definition deref_opt (p : option ptr) : M St (ptr * AbstractCatalogEntry) :=
  match p with
  | Some a => e ← deref a; ret (a, e)
  | None => undefined
  end.

Definition store (p : ptr) (e : AbstractCatalogEntry) : M St unit :=
  modify (fun s => (with_heap (<[p := e]> (heap (fst s))) (fst s), snd s)).

Definition set_data (nm : string) (p : option ptr) : M St unit :=
  modify (fun s => (with_data (<[nm := p]> (data (fst s))) (fst s), snd s)).

(** [bool CatalogSet::CreateEntry(Transaction &, const string &name,
    unique_ptr<AbstractCatalogEntry> value)].  The object behind [value]
    is given by its fields; it is placed in the heap when the call takes
    ownership of it. *)
Definition CreateEntry (nm : string) (value : AbstractCatalogEntry) : M St bool :=
  s ← get;
  (* first check if the entry exists in the unordered set *)
  early ←
    match data (fst s) !! nm with
    | None =>
        (* entry has never been created: first create a dummy deleted
           entry, so transactions started before the commit of this
           transaction do not see it yet *)
        let dummy_node := alloc (fst s) in
        store dummy_node
          (mkEntry nm 0 true None None (Some (this (fst s))));;
        set_data nm (Some dummy_node);;
        ret None
    | Some p =>
        (* if it does, we have to check version numbers *)
        cur ← deref_opt p;
        let current := snd cur in
        if TRANSACTION_ID_START <=? timestamp current then
          (* current version has been written to by a currently active
             transaction *)
          throw (TransactionException "Catalog write-write conflict!")
        else if negb (deleted current) then
          (* a committed version that has not been deleted *)
          ret (Some false)
        else ret None
    end;
  match early with
  | Some b => ret b
  | None =>
      (* create a new entry and replace the currently stored one *)
      s1 ← get;
      let v := alloc (fst s1) in
      (* value->timestamp = transaction.transaction_id *)
      let value1 := with_timestamp (transaction_id (snd s1)) value in
      (* value->child = move(data[name]) *)
      let moved := default None (data (fst s1) !! nm) in
      let value2 := with_child moved value1 in
      set_data nm None;;
      store v value2;;
      (* value->child->parent = value.get() *)
      c ← deref_opt moved;
      store (fst c) (with_parent (Some v) (snd c));;
      (* value->set = this *)
      store v (with_set (Some (this (fst s1))) value2);;
      (* push the old entry in the undo buffer for this transaction *)
      modify (fun s => (fst s, PushCatalogEntry (fst c) (snd s)));;
      (* data[name] = move(value) *)
      set_data nm (Some v);;
      ret true
  end.

(** [bool CatalogSet::DropEntry(Transaction &, const string &name)]. *)
Definition DropEntry (nm : string) : M St bool :=
  (* FIXME implement *)
  ret false.

End CatalogSet.

(** The version walk of [EntryExists]: [current] moves down the chain
    until a node without child, a node of this transaction, or a node
    committed before the transaction started. *)
Fixpoint EntryExists_loop (fuel : nat) (h : gmap nat AbstractCatalogEntry)
    (transaction : Transaction) (current : ptr) : outcome ptr :=
  match h !! current with
  | None => Undefined
  | Some e =>
      match child e with
      | None => Return current
      | Some c =>
          if timestamp e =? transaction_id transaction then
            (* we created this version *)
            Return current
          else if timestamp e <? start_time transaction then
            (* this version was commited before we started the transaction *)
            Return current
          else
            match fuel with
            | O => OutOfFuel
            | S fuel' => EntryExists_loop fuel' h transaction c
            end
      end
  end.

(** [bool CatalogSet::EntryExists(Transaction &, const string &name)]. *)
Definition EntryExists (fuel : nat) (s : CatalogSet) (transaction : Transaction)
    (nm : string) : outcome bool :=
  match data s !! nm with
  | None =>
      (* entry has never been created *)
      Return false
  | Some None => Undefined
  | Some (Some head) =>
      match EntryExists_loop fuel (heap s) transaction head with
      | Return current =>
          match heap s !! current with
          | Some e => Return (negb (deleted e))
          | None => Undefined
          end
      | Throw e => Throw e
      | AssertionFailure => AssertionFailure
      | Undefined => Undefined
      | OutOfFuel => OutOfFuel
      end
  end.

(** The version walk of [GetEntry]. *)
Fixpoint GetEntry_loop (fuel : nat) (h : gmap nat AbstractCatalogEntry)
    (transaction : Transaction) (current : ptr) : outcome ptr :=
  match h !! current with
  | None => Undefined
  | Some e =>
      match child e with
      | None => Return current
      | Some c =>
          if timestamp e =? transaction_id transaction then Return current
          else if timestamp e <? start_time transaction then Return current
          else
            match fuel with
            | O => OutOfFuel
            | S fuel' => GetEntry_loop fuel' h transaction c
            end
      end
  end.

(** [AbstractCatalogEntry *CatalogSet::GetEntry(Transaction &, const
    string &name)]; the result is the address of the entry, [None] for
    [nullptr]. *)
Definition GetEntry (fuel : nat) (s : CatalogSet) (transaction : Transaction)
    (nm : string) : outcome (option ptr) :=
  match data s !! nm with
  | None => Return None
  | Some None => Undefined
  | Some (Some head) =>
      match GetEntry_loop fuel (heap s) transaction head with
      | Return current =>
          match heap s !! current with
          | Some e => if deleted e then Return None else Return (Some current)
          | None => Undefined
          end
      | Throw e => Throw e
      | AssertionFailure => AssertionFailure
      | Undefined => Undefined
      | OutOfFuel => OutOfFuel
      end
  end.

(** [void CatalogSet::Undo(AbstractCatalogEntry *entry)]: place [entry]
    where [entry->parent] is now.  The owning pointer that is assigned
    to gives up its previous node, which is destroyed. *)
Definition Undo (s : CatalogSet) (entry : ptr) : outcome unit * CatalogSet :=
  match heap s !! entry with
  | None => (Undefined, s)
  | Some e =>
      match parent e with
      | None => (Undefined, s)
      | Some p =>
          match heap s !! p with
          | None => (Undefined, s)
          | Some pe =>
              let moved := child pe in
              match parent pe with
              | Some gp =>
                  (* parent->parent->child = move(parent->child) *)
                  match heap s !! gp with
                  | None => (Undefined, s)
                  | Some gpe =>
                      let h1 := <[p := with_child None pe]> (heap s) in
                      let h2 := <[gp := with_child moved gpe]> h1 in
                      (Return tt, with_heap (destroy (size h2) (child gpe) h2) s)
                  end
              | None =>
                  (* data[name] = move(parent->child) *)
                  let nm := name e in
                  let old := default None (data s !! nm) in
                  let h1 := <[p := with_child None pe]> (heap s) in
                  (Return tt,
                   mkSet (this s) (<[nm := moved]> (data s))
                         (destroy (size h1) old h1))
              end
          end
      end
  end.

(** A pointer seen as the answer "is not null". *)
Definition not_null (r : option ptr) : bool :=
  match r with
  | Some _ => true
  | None => false
  end.

(** *** Version chains and well-formed sets *)

(** The version that [CreateEntry] puts on top of the node [c]. *)
Definition new_version (S : CatalogSet) (T : Transaction) (value : AbstractCatalogEntry)
    (c : ptr) : AbstractCatalogEntry :=
  mkEntry (name value) (transaction_id T) (deleted value) (Some c)
          (parent value) (Some (this S)).

(** [chain h a k]: following [child] from [a] reaches the last node of
    the chain after [k] links, inside the heap [h]. *)
Inductive chain (h : gmap nat AbstractCatalogEntry) : ptr -> nat -> Prop :=
| chain_last a e :
    h !! a = Some e -> child e = None -> chain h a 0
| chain_link a e c k :
    h !! a = Some e -> child e = Some c -> chain h c k -> chain h a (S k).

(** In a well-formed set every name is bound to a non-null head whose
    [name] is that name and whose chain ends. *)
Definition wf (S : CatalogSet) : Prop :=
  forall nm p, data S !! nm = Some p ->
    exists a e k, p = Some a /\ heap S !! a = Some e /\ name e = nm
                  /\ chain (heap S) a k.

(** Two nodes are the same version when the walk cannot tell them
    apart. *)
Definition same_version (e e' : AbstractCatalogEntry) : Prop :=
  name e = name e' /\ timestamp e = timestamp e' /\ deleted e = deleted e'
  /\ child e = child e'.

Definition extends (h h' : gmap nat AbstractCatalogEntry) : Prop :=
  forall a e, h !! a = Some e -> exists e', h' !! a = Some e' /\ same_version e e'.

(** *** Concrete sets used to exercise the statements *)

Definition TIS0 : Z := 4294967296.
Definition txn1 : Transaction := mkTransaction 4294967297 5 [].
Definition txn2 : Transaction := mkTransaction 4294967298 7 [].
Definition tbl : AbstractCatalogEntry := mkEntry "tbl" 0 false None None None.

(** The set after [txn1] created ["tbl"], and [txn1] after that call. *)
Definition set_created : CatalogSet :=
  fst (snd (CreateEntry TIS0 "tbl" tbl (empty_set 0, txn1))).
Definition txn1_created : Transaction :=
  snd (snd (CreateEntry TIS0 "tbl" tbl (empty_set 0, txn1))).

(** A set in which ["tbl"] has a committed live version (commit
    timestamp 3) over its dummy node. *)
Definition set_committed : CatalogSet :=
  mkSet 0
    (<["tbl" := Some 1%nat]> ∅)
    (<[1%nat := mkEntry "tbl" 3 false (Some 0%nat) None (Some 0%nat)]>
       (<[0%nat := mkEntry "tbl" 0 true None (Some 1%nat) (Some 0%nat)]> ∅)).

(** *** The single writer of a chain *)

(** [committed_from TIS h a]: the node [a] and every older version
    under it carry a commit timestamp, and the chain ends. *)
Inductive committed_from (TIS : Z) (h : gmap nat AbstractCatalogEntry) : ptr -> Prop :=
| committed_last a e :
    h !! a = Some e -> timestamp e < TIS -> child e = None ->
    committed_from TIS h a
| committed_link a e c :
    h !! a = Some e -> timestamp e < TIS -> child e = Some c ->
    committed_from TIS h c -> committed_from TIS h a.

(** At most one in-flight writer per name: only the head of a chain may
    carry a transaction id. *)
Definition one_writer (TIS : Z) (S : CatalogSet) : Prop :=
  forall nm a e c, data S !! nm = Some (Some a) -> heap S !! a = Some e ->
    child e = Some c -> committed_from TIS (heap S) c.
End Catalog.

(** ** Column segments *)

Module Segment.

Import Catalog.

(** The fields of [UpdateInfo] read by the conflict check: the version
    number (a transaction id or a commit timestamp), the number [N] of
    updated tuples, their row offsets within the vector, and the next
    (older) node of the per-vector chain. *)
Inductive UpdateInfo : Type := mkUpdateInfo {
  version_number : Z;
  N : nat;
  tuples : list Z;
  next : option UpdateInfo;
}.

(** What a segment function hands over to when it is done with the
    version chain: both callees are virtual and defined by the typed
    segments, which are not embedded. *)
Inductive delegated : Type :=
| FetchBaseData (vector_index : nat)
| Update_vector (vector_index : nat) (vector_offset : Z) (node : option UpdateInfo).

Inductive StorageLockKey : Type :=
| SharedLock
| ExclusiveLock.

Record ColumnScanState : Type := mkScanState {
  locks : list StorageLockKey;
}.

Record Segment : Type := mkSegment {
  block_id : Z;
  max_vector_count : nat;
  versions : option (list (option UpdateInfo));
}.

Definition with_block_id (b : Z) (s : Segment) :=
  mkSegment b (max_vector_count s) (versions s).
Definition with_versions (v : option (list (option UpdateInfo))) (s : Segment) :=
  mkSegment (block_id s) (max_vector_count s) v.

(** Conversions between [row_t] (signed 64 bit) and [idx_t] (unsigned
    64 bit). *)
Definition to_idx (x : Z) : Z := x mod 2 ^ 64.
Definition to_row (x : Z) : Z := (x + 2 ^ 63) mod 2 ^ 64 - 2 ^ 63.

Definition lift {St A} (o : outcome A) : M St A := fun s => (o, s).

Definition assert {St} (b : bool) : M St unit :=
  fun s => if b then (Return tt, s) else (AssertionFailure, s).

(** Read of an array element; reading past the end is undefined. *)
Definition read {St A} (l : list A) (i : nat) : M St A :=
  fun s => match l !! i with
           | Some a => (Return a, s)
           | None => (Undefined, s)
           end.

(** The merge loop of [CheckForConflicts] over the sorted [ids] and the
    sorted [info->tuples].  Every round reads [ids[i]] and [tuples[j]]
    and then advances [i] or [j], so it runs for at most
    [length ids + length tuples] rounds before it would read past the
    end of an array. *)
Fixpoint conflict_loop (fuel : nat) (ids : list Z) (count : nat) (offset : Z)
    (info : UpdateInfo) (i j : nat) : outcome unit :=
  match fuel with
  | O => OutOfFuel
  | S fuel' =>
      match ids !! i, tuples info !! j with
      | Some ids_i, Some tuple_j =>
          let id := ids_i - offset in
          if id =? tuple_j then
            Throw (TransactionException "Conflict on update!")
          else if id <? tuple_j then
            (* id < the current tuple in info, move to next id *)
            let i := S i in
            if (i =? count)%nat then Return tt
            else conflict_loop fuel' ids count offset info i j
          else
            (* id > the current tuple, move to next tuple in info *)
            let j := S j in
            if (j =? N info)%nat then Return tt
            else conflict_loop fuel' ids count offset info i j
      | _, _ => Undefined
      end
  end.

(** [static void CheckForConflicts(UpdateInfo *info, Transaction &,
    row_t *ids, idx_t count, row_t offset, UpdateInfo *&node)]; the
    result is the final value of [node]. *)
Fixpoint CheckForConflicts (info : UpdateInfo) (transaction : Transaction)
    (ids : list Z) (count : nat) (offset : Z) (node : option UpdateInfo)
    {struct info} : outcome (option UpdateInfo) :=
  let here :=
    if version_number info =? transaction_id transaction then
      (* this UpdateInfo belongs to the current transaction *)
      Return (Some info)
    else if start_time transaction <? version_number info then
      (* potential conflict, check that tuple ids do not conflict *)
      outcome_map (fun _ => node)
        (conflict_loop (S (length ids + length (tuples info)))
           ids count offset info 0 0)
    else Return node in
  match here with
  | Return node' =>
      match next info with
      | Some nx => CheckForConflicts nx transaction ids count offset node'
      | None => Return node'
      end
  | Throw e => Throw e
  | AssertionFailure => AssertionFailure
  | Undefined => Undefined
  | OutOfFuel => OutOfFuel
  end.

(** The [DEBUG] check of [Update]: [ids[i] > ids[i - 1]] for
    [i = 1 .. count - 1]; [n] counts the iterations left. *)
Fixpoint ids_ascending (n : nat) (ids : list Z) (i : nat) : outcome unit :=
  match n with
  | O => Return tt
  | S n' =>
      match ids !! i, ids !! (i - 1)%nat with
      | Some a, Some b =>
          if b <? a then ids_ascending n' ids (S i) else AssertionFailure
      | _, _ => Undefined
      end
  end.

Section Segment.

(** Constants and build flag that are declared in headers and build
    files; the development is parametric in them. *)
Variable MAXIMUM_BLOCK : Z.
Variable STANDARD_VECTOR_SIZE : Z.
Variable DEBUG : bool.

Definition vector_index_of (first_id offset : Z) : Z :=
  to_idx ((first_id - offset) ÷ STANDARD_VECTOR_SIZE).

Definition vector_offset_of (first_id offset : Z) : Z :=
  to_idx (offset + to_idx (vector_index_of first_id offset * STANDARD_VECTOR_SIZE)).

(** [void Segment::Update(ColumnData &, SegmentStatistics &,
    Transaction &, Vector &update, row_t *ids, idx_t count, row_t
    offset)].  The exclusive lock is taken on entry and released on
    every exit. *)
Definition Update (transaction : Transaction) (ids : list Z) (count : nat)
    (offset : Z) : M Segment delegated :=
  seg ← get;
  (* can only perform in-place updates on temporary blocks *)
  assert (MAXIMUM_BLOCK <=? block_id seg);;
  (* verify that the ids are sorted and there are no duplicates *)
  (if DEBUG then lift (ids_ascending (count - 1) ids 1) else mret tt);;
  (* create the versions for this segment, if there are none yet *)
  (match versions seg with
   | None =>
       modify (with_versions (Some (replicate (max_vector_count seg) None)))
   | Some _ => mret tt
   end);;
  (* get the vector index based on the first id *)
  first_id ← read ids 0;
  let vector_index := vector_index_of first_id offset in
  let vector_offset := vector_offset_of first_id offset in
  assert (offset <=? first_id);;
  assert (vector_index <? Z.of_nat (max_vector_count seg));;
  (* first check the version chain *)
  seg1 ← get;
  slot ← read (default [] (versions seg1)) (Z.to_nat vector_index);
  node ←
    match slot with
    | Some info =>
        lift (CheckForConflicts info transaction ids count
                (to_row vector_offset) None)
    | None => mret None
    end;
  mret (Update_vector (Z.to_nat vector_index) vector_offset node).

(** [void Segment::IndexScan(ColumnScanState &state, idx_t vector_index,
    Vector &result)]. *)
Definition IndexScan (seg : Segment) (vector_index : nat)
    : M ColumnScanState delegated :=
  (if (vector_index =? 0)%nat then
     (* obtain a shared lock on the segment that we keep until the
        index scan is complete *)
     modify (fun state => mkScanState (locks state ++ [SharedLock]))
   else mret tt);;
  (match versions seg with
   | Some vs =>
       slot ← read vs vector_index;
       match slot with
       | Some _ =>
           throw (TransactionException
                    "Cannot create index with outstanding updates")
       | None => mret tt
       end
   | None => mret tt
   end);;
  mret (FetchBaseData vector_index).

(** Modelled from the spec: the buffer manager is an external
    collaborator.  Its blocks are byte buffers found by block id;
    [Pin] yields the buffer of a block, [Allocate] a fresh in-memory
    block, whose id [new_id] the manager chooses.  The new block is a
    [ManagedBuffer], whose constructor asserts [id >= MAXIMUM_BLOCK]. *)
Record BufferManager : Type := mkManager {
  blocks : gmap Z (list Z);
}.

Definition Pin (id : Z) : M (Segment * BufferManager) (list Z) :=
  fun s => match blocks (snd s) !! id with
           | Some buffer => (Return buffer, s)
           | None => (Undefined, s)
           end.

Definition Allocate (new_id : Z) : M (Segment * BufferManager) Z :=
  assert (MAXIMUM_BLOCK <=? new_id);;
  modify (fun s => (fst s, mkManager (<[new_id := []]> (blocks (snd s)))));;
  mret new_id.

(** [void Segment::ToTemporary()]. *)
Definition ToTemporary (new_id : Z) : M (Segment * BufferManager) unit :=
  s ← get;
  if MAXIMUM_BLOCK <=? block_id (fst s) then
    (* conversion has already been performed by a different thread *)
    mret tt
  else
    (* pin the current block *)
    current ← Pin (block_id (fst s));
    (* now allocate a new block from the buffer manager *)
    handle ← Allocate new_id;
    (* now copy the data over and switch to using the new block id *)
    modify (fun s => (with_block_id handle (fst s),
                      mkManager (<[handle := current]> (blocks (snd s)))));;
    mret tt.

End Segment.

(** *** Chains of update nodes *)

(** Induction along the [next] links of a chain. *)
Fixpoint UpdateInfo_chain_ind (P : UpdateInfo -> Prop)
    (Hlast : forall v n t, P (mkUpdateInfo v n t None))
    (Hlink : forall v n t nx, P nx -> P (mkUpdateInfo v n t (Some nx)))
    (info : UpdateInfo) : P info :=
  match info with
  | mkUpdateInfo v n t None => Hlast v n t
  | mkUpdateInfo v n t (Some nx) =>
      Hlink v n t nx (UpdateInfo_chain_ind P Hlast Hlink nx)
  end.

(** The nodes of a chain, newest first. *)
Fixpoint chain_nodes (info : UpdateInfo) : list UpdateInfo :=
  info :: match next info with
          | Some nx => chain_nodes nx
          | None => []
          end.

(** A node as [CreateUpdateInfo] leaves it: [N] tuples, at least one,
    strictly ascending. *)
Definition node_ok (nd : UpdateInfo) : Prop :=
  N nd = length (tuples nd) /\ (1 <= N nd)%nat
  /\ StronglySorted Z.lt (tuples nd).

(** [nd] was written by a transaction concurrent with [T]. *)
Definition concurrent (T : Transaction) (nd : UpdateInfo) : Prop :=
  version_number nd <> transaction_id T /\ start_time T < version_number nd.

(** Some updated row of [ids] is a row of [nd]. *)
Definition overlaps (ids : list Z) (offset : Z) (nd : UpdateInfo) : Prop :=
  exists x t, x ∈ ids /\ t ∈ tuples nd /\ x - offset = t.

Definition conflict : exception := TransactionException "Conflict on update!".

Definition outstanding_updates : exception :=
  TransactionException "Cannot create index with outstanding updates".

(** *** Concrete segments used to exercise the statements *)

Definition MB0 : Z := 4611686018427388000.
Definition SVS0 : Z := 1024.

(** A chain on vector 0: a version committed at 4 over an uncommitted
    update of rows 3 and 5 by [txn1]. *)
Definition info_txn1 : UpdateInfo := mkUpdateInfo 4294967297 2 [3; 5] None.
Definition info_head : UpdateInfo := mkUpdateInfo 4 1 [7] (Some info_txn1).
Definition seg_v0 : Segment := mkSegment MB0 2 (Some [Some info_head; None]).

(** A segment whose only chain is on vector 1, and a segment on a disk
    block. *)
Definition seg_v1 : Segment := mkSegment MB0 2 (Some [None; Some info_txn1]).
Definition seg_disk : Segment := mkSegment 7 2 None.

(** The first row of the vector that holds [first_id]. *)
Definition vector_start (SVS first_id offset : Z) : Z :=
  offset + (first_id - offset) `div` SVS * SVS.

End Segment.

(** ** Creation of update nodes *)

Module UpdateNodes.

Import Catalog Segment.

Section CreateUpdateInfo.

Variable STANDARD_VECTOR_SIZE : Z.

(** [sel_t], the type of [UpdateInfo::N] and of the entries of
    [UpdateInfo::tuples], is an unsigned integer type declared in a
    header that is not embedded; [SEL_RANGE] is the number of its
    values. *)
Variable SEL_RANGE : Z.

Definition to_sel (x : Z) : Z := x mod SEL_RANGE.

(** [tuples[i] = x] on an array of [capacity] entries of which the first
    [length tuples] are initialised.  The loop of [CreateUpdateInfo]
    writes the entries in order, so it only ever initialises the next
    entry; skipping entries has no representation here. *)
Definition write_tuple (capacity : nat) (tuples : list Z) (i : nat) (x : Z)
    : outcome (list Z) :=
  if (capacity <=? i)%nat then Undefined
  else if (i <? length tuples)%nat then Return (<[i := x]> tuples)
  else if (i =? length tuples)%nat then Return (tuples ++ [x])
  else Undefined.

(** The loop that sets up the tuple ids; [n] counts the rounds left. *)
Fixpoint set_tuples (n : nat) (ids : list Z) (vector_offset : Z) (i : nat)
    (tuples : list Z) : outcome unit * list Z :=
  match n with
  | O => (Return tt, tuples)
  | S n' =>
      match ids !! i with
      | None => (Undefined, tuples)
      | Some id =>
          if (vector_offset <=? to_idx id)
             && (to_idx id <? to_idx (vector_offset + STANDARD_VECTOR_SIZE))
          then
            match write_tuple (Z.to_nat STANDARD_VECTOR_SIZE) tuples i
                    (to_sel (to_idx (id - vector_offset))) with
            | Return tuples' => set_tuples n' ids vector_offset (S i) tuples'
            | _ => (Undefined, tuples)
            end
          else (AssertionFailure, tuples)
      end
  end.

(** [UpdateInfo *Segment::CreateUpdateInfo(ColumnData &, Transaction &,
    row_t *ids, idx_t count, idx_t vector_index, idx_t vector_offset,
    idx_t type_size)].  [Transaction::CreateUpdateInfo] is not embedded:
    the node it allocates has room for [STANDARD_VECTOR_SIZE] tuples,
    none of them initialised, and comes with the version number
    [version].  The chain is represented by its [next] links, so the
    write to [node->next->prev] has no counterpart; the slot of the
    vector points to the node while the node is filled in, so it holds
    what was written when the loop stops early. *)
Definition CreateUpdateInfo (version : Z) (ids : list Z) (count : nat)
    (vector_index : nat) (vector_offset : Z) : M Segment UpdateInfo :=
  seg ← get;
  vs ← match versions seg with
       | Some vs => mret vs
       | None => undefined
       end;
  (* node->next = versions[vector_index] *)
  old ← read vs vector_index;
  (* node->N = count, and the tuple ids *)
  let filled := set_tuples count ids vector_offset 0 [] in
  let node :=
    mkUpdateInfo version (Z.to_nat (to_sel (Z.of_nat count))) (snd filled) old in
  (* versions[vector_index] = node *)
  modify (with_versions (Some (<[vector_index := Some node]> vs)));;
  lift (fst filled);;
  mret node.

End CreateUpdateInfo.

(** [nd] was not written by [T]. *)
Definition foreign (T : Transaction) (nd : UpdateInfo) : Prop :=
  version_number nd <> transaction_id T.

End UpdateNodes.

(** ** Filters on selection vectors *)

Module Filter.

Inductive filter_exception : Type :=
| NotImplementedException (msg : string).

(** How a filter function ends: with a value, with an exception, or in
    undefined behaviour (a read or write outside an array, a read of an
    entry that was never written). *)
Inductive answer (A : Type) : Type :=
| Ok (a : A)
| Raise (e : filter_exception)
| Unspecified.

Arguments Ok {A} a.
Arguments Raise {A} e.
Arguments Unspecified {A}.

(** The members of [ExpressionType] that [filterSelectionType] names,
    [COMPARE_NOTEQUAL], and one constructor for the rest of the
    enumeration, which is declared in a header that is not embedded. *)
Inductive ExpressionType : Type :=
| COMPARE_EQUAL
| COMPARE_NOTEQUAL
| COMPARE_LESSTHAN
| COMPARE_GREATERTHAN
| COMPARE_LESSTHANOREQUALTO
| COMPARE_GREATERTHANOREQUALTO
| OTHER_EXPRESSION (code : nat).

(** [SelectionVector] is declared in a header that is not embedded.  It
    is used through its sized constructor, [get_index], [set_index] and
    [Initialize] only, and is taken to be the array of row indices that
    these address: [sel_vector] holds the entries written so far,
    [capacity] is the size of the array. *)
Record SelectionVector : Type := mkSel {
  sel_vector : list nat;
  capacity : nat;
}.

(** [SelectionVector new_sel(count)]: room for [count] entries, none of
    them written. *)
Definition new_selection (count : nat) : SelectionVector := mkSel [] count.

Definition get_index (sel : SelectionVector) (i : nat) : answer nat :=
  match sel_vector sel !! i with
  | Some idx => Ok idx
  | None => Unspecified
  end.

(** [set_index(i, loc)]: inside the array, on an entry already written
    or on the next one. *)
Definition set_index (sel : SelectionVector) (i : nat) (loc : nat)
    : answer SelectionVector :=
  if (capacity sel <=? i)%nat then Unspecified
  else if (i <? length (sel_vector sel))%nat then
    Ok (mkSel (<[i := loc]> (sel_vector sel)) (capacity sel))
  else if (i =? length (sel_vector sel))%nat then
    Ok (mkSel (sel_vector sel ++ [loc]) (capacity sel))
  else Unspecified.

(** [nullmask.any()] on the bitset. *)
Definition any (nullmask : list bool) : bool := existsb (fun b => b) nullmask.

Section Loops.

(** The element type [T] of the template. *)
Context {T : Type}.

(** The test [(!HAS_NULL || !nullmask[idx]) && OP::Operation(vec[idx],
    *predicate)], evaluated left to right with short circuit. *)
Definition passes (OP : T -> T -> bool) (HAS_NULL : bool) (vec : list T)
    (predicate : T) (nullmask : list bool) (idx : nat) : answer bool :=
  let not_null :=
    if HAS_NULL then
      match nullmask !! idx with
      | Some b => Ok (negb b)
      | None => Unspecified
      end
    else Ok true in
  match not_null with
  | Ok true =>
      match vec !! idx with
      | Some x => Ok (OP x predicate)
      | None => Unspecified
      end
  | Ok false => Ok false
  | Raise e => Raise e
  | Unspecified => Unspecified
  end.

(** The loop of [filter_selection_loop]; [n] counts the rounds left. *)
Fixpoint selection_loop (OP : T -> T -> bool) (HAS_NULL : bool) (vec : list T)
    (predicate : T) (sel : SelectionVector) (nullmask : list bool)
    (n : nat) (i : nat) (result_count : nat) (result_sel : SelectionVector)
    : answer (nat * SelectionVector) :=
  match n with
  | O => Ok (result_count, result_sel)
  | S n' =>
      match get_index sel i with
      | Ok idx =>
          match passes OP HAS_NULL vec predicate nullmask idx with
          | Ok true =>
              match set_index result_sel result_count idx with
              | Ok result_sel' =>
                  selection_loop OP HAS_NULL vec predicate sel nullmask
                    n' (S i) (S result_count) result_sel'
              | Raise e => Raise e
              | Unspecified => Unspecified
              end
          | Ok false =>
              selection_loop OP HAS_NULL vec predicate sel nullmask
                n' (S i) result_count result_sel
          | Raise e => Raise e
          | Unspecified => Unspecified
          end
      | Raise e => Raise e
      | Unspecified => Unspecified
      end
  end.

(** [template <class T, class OP, bool HAS_NULL> static idx_t
    filter_selection_loop(T *vec, T *predicate, SelectionVector &sel,
    idx_t approved_tuple_count, nullmask_t &nullmask, SelectionVector
    &result_sel)]; the answer is the returned count with the final
    [result_sel]. *)
Definition filter_selection_loop (OP : T -> T -> bool) (HAS_NULL : bool)
    (vec : list T) (predicate : T) (sel : SelectionVector)
    (approved_tuple_count : nat) (nullmask : list bool)
    (result_sel : SelectionVector) : answer (nat * SelectionVector) :=
  selection_loop OP HAS_NULL vec predicate sel nullmask
    approved_tuple_count 0 0 result_sel.

(** The comparison operators of the templates, declared in a header
    that is not embedded. *)
Variables Equals LessThan GreaterThan LessThanEquals GreaterThanEquals
  : T -> T -> bool.

(** The operator that the [switch] of [filterSelectionType] picks. *)
Definition operator_of (comparison_type : ExpressionType)
    : option (T -> T -> bool) :=
  match comparison_type with
  | COMPARE_EQUAL => Some Equals
  | COMPARE_LESSTHAN => Some LessThan
  | COMPARE_GREATERTHAN => Some GreaterThan
  | COMPARE_LESSTHANOREQUALTO => Some LessThanEquals
  | COMPARE_GREATERTHANOREQUALTO => Some GreaterThanEquals
  | _ => None
  end.

(** [template <class T> static void filterSelectionType(T *vec, T
    *predicate, SelectionVector &sel, idx_t &approved_tuple_count,
    ExpressionType comparison_type, nullmask_t &nullmask)]; the answer
    is the final [sel] with the final [approved_tuple_count]. *)
Definition filterSelectionType (vec : list T) (predicate : T)
    (sel : SelectionVector) (approved_tuple_count : nat)
    (comparison_type : ExpressionType) (nullmask : list bool)
    : answer (SelectionVector * nat) :=
  let new_sel := new_selection approved_tuple_count in
  let run OP :=
    if negb (any nullmask) then
      filter_selection_loop OP false vec predicate sel approved_tuple_count
        nullmask new_sel
    else
      filter_selection_loop OP true vec predicate sel approved_tuple_count
        nullmask new_sel in
  let switched :=
    match comparison_type with
    | COMPARE_EQUAL => run Equals
    | COMPARE_LESSTHAN => run LessThan
    | COMPARE_GREATERTHAN => run GreaterThan
    | COMPARE_LESSTHANOREQUALTO => run LessThanEquals
    | COMPARE_GREATERTHANOREQUALTO => run GreaterThanEquals
    | _ =>
        Raise (NotImplementedException
                 "Unknown comparison type for filter pushed down to table!")
    end in
  match switched with
  | Ok (count, new_sel') =>
      (* sel.Initialize(new_sel) *)
      Ok (new_sel', count)
  | Raise e => Raise e
  | Unspecified => Unspecified
  end.

End Loops.

(** The rows a filter keeps: not null and in the relation [OP] with the
    constant. *)
Definition keeps_row {T : Type} (OP : T -> T -> bool) (vec : list T)
    (predicate : T) (nullmask : list bool) (idx : nat) : bool :=
  match vec !! idx, nullmask !! idx with
  | Some x, Some b => negb b && OP x predicate
  | _, _ => false
  end.

(** Every selected row lies inside the vector and the null mask. *)
Definition in_bounds {T : Type} (vec : list T) (nullmask : list bool)
    (rows : list nat) : Prop :=
  Forall (fun idx => (idx < length vec)%nat /\ (idx < length nullmask)%nat) rows.

(** *** A concrete vector used to exercise the statements *)

(** A vector of four integers, the second of them null, with all rows
    selected. *)
Definition four_values : list Z := [10; 20; 30; 40].
Definition second_null : list bool := [false; true; false; false].
Definition all_four : SelectionVector := mkSel [0; 1; 2; 3]%nat 4.

End Filter.

(** ** Properties of catalog sets *)

Module CatalogFacts.

Import Catalog.

Ltac run := cbv [CreateEntry DropEntry mbind M_bind mret M_ret bind ret get modify throw
                 undefined deref deref_opt store set_data with_heap with_data
                 fst snd this data heap alloc] in *.

Lemma fresh_ne (h : gmap nat AbstractCatalogEntry) a e :
  h !! a = Some e -> fresh (dom h) ≠ a.
Proof.
  intros H Heq. pose proof (is_fresh (dom h)) as Hf. rewrite Heq in Hf.
  apply Hf, elem_of_dom. eauto.
Qed.

Lemma fresh_lookup (h : gmap nat AbstractCatalogEntry) : h !! fresh (dom h) = None.
Proof. apply not_elem_of_dom, is_fresh. Qed.

Lemma CreateEntry_conflict TIS S T nm value a cur :
  data S !! nm = Some (Some a) -> heap S !! a = Some cur ->
  TIS <= timestamp cur ->
  CreateEntry TIS nm value (S, T)
  = (Throw (TransactionException "Catalog write-write conflict!"), (S, T)).
Proof.
  intros Hd Hh Hts. run. rewrite Hd. run. simpl. rewrite Hh.
  destruct (Z.leb_spec TIS (timestamp cur)); [reflexivity | lia].
Qed.

Lemma CreateEntry_live TIS S T nm value a cur :
  data S !! nm = Some (Some a) -> heap S !! a = Some cur ->
  timestamp cur < TIS -> deleted cur = false ->
  CreateEntry TIS nm value (S, T) = (Return false, (S, T)).
Proof.
  intros Hd Hh Hts Hdel. run. rewrite Hd. run. simpl. rewrite Hh.
  destruct (Z.leb_spec TIS (timestamp cur)); [lia |].
  rewrite Hdel. reflexivity.
Qed.

Lemma CreateEntry_new TIS S T nm value :
  data S !! nm = None ->
  let d := fresh (dom (heap S)) in
  let dummy := mkEntry nm 0 true None None (Some (this S)) in
  let v := fresh (dom (<[d := dummy]> (heap S))) in
  CreateEntry TIS nm value (S, T)
  = (Return true,
     (mkSet (this S) (<[nm := Some v]> (data S))
        (<[v := new_version S T value d]>
           (<[d := with_parent (Some v) dummy]> (heap S))),
      PushCatalogEntry d T)).
Proof.
  intros Hd d dummy v. run. rewrite Hd.
  destruct S as [th dt hp]; simpl in *. rewrite lookup_insert_eq. simpl.
  fold d. fold dummy. fold v.
  assert (Hvd : v ≠ d).
  { apply (fresh_ne _ d dummy). apply lookup_insert_eq. }
  rewrite lookup_insert_ne by done. rewrite lookup_insert_eq.
  rewrite !insert_insert_eq.
  rewrite (insert_insert_ne _ d v) by done.
  rewrite !insert_insert_eq. reflexivity.
Qed.

Lemma CreateEntry_replace TIS S T nm value a cur :
  data S !! nm = Some (Some a) -> heap S !! a = Some cur ->
  timestamp cur < TIS -> deleted cur = true ->
  let v := fresh (dom (heap S)) in
  CreateEntry TIS nm value (S, T)
  = (Return true,
     (mkSet (this S) (<[nm := Some v]> (data S))
        (<[v := new_version S T value a]>
           (<[a := with_parent (Some v) cur]> (heap S))),
      PushCatalogEntry a T)).
Proof.
  intros Hd Hh Hts Hdel v. run. rewrite Hd. run. simpl. rewrite Hh.
  destruct (Z.leb_spec TIS (timestamp cur)); [lia |].
  rewrite Hdel. simpl. rewrite Hd. simpl.
  destruct S as [th dt hp]; simpl in *. fold v.
  assert (Hva : v ≠ a) by (apply (fresh_ne _ a cur); done).
  rewrite lookup_insert_ne by done. rewrite Hh.
  rewrite !insert_insert_eq.
  rewrite (insert_insert_ne _ a v) by done.
  rewrite !insert_insert_eq. reflexivity.
Qed.

(** Every way [CreateEntry] can end. *)
Lemma CreateEntry_cases TIS S T nm value :
  (data S !! nm = None)
  \/ (data S !! nm = Some None /\ CreateEntry TIS nm value (S, T) = (Undefined, (S, T)))
  \/ (exists a, data S !! nm = Some (Some a) /\ heap S !! a = None
        /\ CreateEntry TIS nm value (S, T) = (Undefined, (S, T)))
  \/ (exists a cur, data S !! nm = Some (Some a) /\ heap S !! a = Some cur
        /\ ((TIS <= timestamp cur)
            \/ (timestamp cur < TIS /\ deleted cur = false)
            \/ (timestamp cur < TIS /\ deleted cur = true))).
Proof.
  destruct (data S !! nm) as [[a|]|] eqn:Hd.
  - destruct (heap S !! a) as [cur|] eqn:Hh.
    + right; right; right. exists a, cur. repeat split; try done.
      destruct (Z.le_gt_cases TIS (timestamp cur)); [by left | right].
      destruct (deleted cur); [right | left]; split; done || lia.
    + right; right; left. exists a. repeat split; try done.
      run. rewrite Hd. simpl. rewrite Hh. reflexivity.
  - right; left. split; [done |]. run. rewrite Hd. reflexivity.
  - by left.
Qed.

(** *** Reads over an extended heap *)

Lemma extends_chain h h' a k : extends h h' -> chain h a k -> chain h' a k.
Proof.
  intros Hext. induction 1 as [a e Ha Hc | a e c k Ha Hc _ IH].
  - destruct (Hext _ _ Ha) as (e' & Ha' & _ & _ & _ & Hch).
    eapply chain_last; [exact Ha' | congruence].
  - destruct (Hext _ _ Ha) as (e' & Ha' & _ & _ & _ & Hch).
    apply (chain_link h' a e' c k Ha'); [congruence | exact IH].
Qed.

Lemma GetEntry_loop_extends h h' T a k :
  extends h h' -> chain h a k ->
  forall fuel, GetEntry_loop fuel h' T a = GetEntry_loop fuel h T a.
Proof.
  intros Hext. induction 1 as [a e Ha Hc | a e c k Ha Hc _ IH]; intros fuel.
  - destruct (Hext _ _ Ha) as (e' & Ha' & _ & _ & _ & Hch).
    destruct fuel; simpl; rewrite Ha, Ha', <- Hch, Hc; reflexivity.
  - destruct (Hext _ _ Ha) as (e' & Ha' & _ & Hts & _ & Hch).
    destruct fuel; simpl; rewrite Ha, Ha', <- Hch, Hc, <- Hts; [reflexivity |].
    rewrite IH. reflexivity.
Qed.

Lemma EntryExists_loop_extends h h' T a k :
  extends h h' -> chain h a k ->
  forall fuel, EntryExists_loop fuel h' T a = EntryExists_loop fuel h T a.
Proof.
  intros Hext. induction 1 as [a e Ha Hc | a e c k Ha Hc _ IH]; intros fuel.
  - destruct (Hext _ _ Ha) as (e' & Ha' & _ & _ & _ & Hch).
    destruct fuel; simpl; rewrite Ha, Ha', <- Hch, Hc; reflexivity.
  - destruct (Hext _ _ Ha) as (e' & Ha' & _ & Hts & _ & Hch).
    destruct fuel; simpl; rewrite Ha, Ha', <- Hch, Hc, <- Hts; [reflexivity |].
    rewrite IH. reflexivity.
Qed.

(** The walk stops on a node of the heap. *)
Lemma GetEntry_loop_in h T fuel : forall a cur,
  GetEntry_loop fuel h T a = Return cur -> is_Some (h !! cur).
Proof.
  induction fuel as [| fuel IH]; intros a cur; simpl;
    destruct (h !! a) as [e|] eqn:Ha; try discriminate;
    destruct (child e) as [c|]; repeat case_match;
    intros Heq; try discriminate; try (injection Heq as <-; eauto).
  eapply IH; eassumption.
Qed.

Lemma EntryExists_loop_in h T fuel : forall a cur,
  EntryExists_loop fuel h T a = Return cur -> is_Some (h !! cur).
Proof.
  induction fuel as [| fuel IH]; intros a cur; simpl;
    destruct (h !! a) as [e|] eqn:Ha; try discriminate;
    destruct (child e) as [c|]; repeat case_match;
    intros Heq; try discriminate; try (injection Heq as <-; eauto).
  eapply IH; eassumption.
Qed.

(** With as much fuel as the chain is long the walk returns. *)
Lemma GetEntry_loop_returns h T a k :
  chain h a k -> forall fuel, (k <= fuel)%nat ->
  exists cur, GetEntry_loop fuel h T a = Return cur.
Proof.
  induction 1 as [a e Ha Hc | a e c k Ha Hc _ IH]; intros fuel Hk.
  - exists a. destruct fuel; simpl; rewrite Ha, Hc; reflexivity.
  - destruct fuel as [| fuel]; [lia |]. simpl. rewrite Ha, Hc.
    repeat case_match; eauto. apply IH. lia.
Qed.

(** Reads of a set [S'] whose map agrees with that of [S] and whose
    heap extends that of [S] give what they give on [S]. *)
Lemma GetEntry_extends S S' T nm fuel :
  wf S -> data S' !! nm = data S !! nm -> extends (heap S) (heap S') ->
  GetEntry fuel S' T nm = GetEntry fuel S T nm.
Proof.
  intros Hwf Hd Hext. unfold GetEntry. rewrite Hd.
  destruct (data S !! nm) as [p|] eqn:Hp; [| reflexivity].
  destruct (Hwf _ _ Hp) as (a & e & k & -> & Ha & _ & Hch).
  rewrite (GetEntry_loop_extends _ _ T a k Hext Hch).
  destruct (GetEntry_loop fuel (heap S) T a) as [cur| | | |] eqn:Hl; try reflexivity.
  destruct (GetEntry_loop_in _ _ _ _ _ Hl) as [ec Hc].
  destruct (Hext _ _ Hc) as (ec' & Hc' & _ & _ & Hdel & _).
  rewrite Hc, Hc', Hdel. reflexivity.
Qed.

Lemma EntryExists_extends S S' T nm fuel :
  wf S -> data S' !! nm = data S !! nm -> extends (heap S) (heap S') ->
  EntryExists fuel S' T nm = EntryExists fuel S T nm.
Proof.
  intros Hwf Hd Hext. unfold EntryExists. rewrite Hd.
  destruct (data S !! nm) as [p|] eqn:Hp; [| reflexivity].
  destruct (Hwf _ _ Hp) as (a & e & k & -> & Ha & _ & Hch).
  rewrite (EntryExists_loop_extends _ _ T a k Hext Hch).
  destruct (EntryExists_loop fuel (heap S) T a) as [cur| | | |] eqn:Hl; try reflexivity.
  destruct (EntryExists_loop_in _ _ _ _ _ Hl) as [ec Hc].
  destruct (Hext _ _ Hc) as (ec' & Hc' & _ & _ & Hdel & _).
  rewrite Hc, Hc', Hdel. reflexivity.
Qed.

Lemma extends_insert_fresh h a e :
  h !! a = None -> extends h (<[a := e]> h).
Proof.
  intros Hn b eb Hb. exists eb. split; [| done].
  rewrite lookup_insert_ne; [done | congruence].
Qed.

Lemma extends_insert_same h a e e' :
  h !! a = Some e -> same_version e e' -> extends h (<[a := e']> h).
Proof.
  intros Ha Hs b eb Hb. destruct (decide (a = b)) as [<- | Hne].
  - exists e'. rewrite lookup_insert_eq. split; [done | congruence].
  - exists eb. rewrite lookup_insert_ne by done. done.
Qed.

Lemma extends_trans h1 h2 h3 : extends h1 h2 -> extends h2 h3 -> extends h1 h3.
Proof.
  intros H12 H23 a e Ha. destruct (H12 _ _ Ha) as (e2 & H2 & Hs2).
  destruct (H23 _ _ H2) as (e3 & H3 & Hs3). exists e3. split; [done |].
  unfold same_version in *. intuition congruence.
Qed.

(** *** Undo of a splice *)

Lemma destroy_leaf fuel a e (h : gmap nat AbstractCatalogEntry) :
  h !! a = Some e -> child e = None -> destroy fuel (Some a) h = delete a h.
Proof.
  intros Ha Hc. destruct fuel; simpl; rewrite Ha; [reflexivity |].
  rewrite Hc. destruct fuel; reflexivity.
Qed.

(** [Undo] of the node [a] that was spliced under the head [v]. *)
Lemma Undo_splice th dt hp nm a ea v ev :
  hp !! v = None -> hp !! a = Some ea -> name ea = nm ->
  child ev = Some a -> parent ev = None ->
  Undo (mkSet th (<[nm := Some v]> dt)
          (<[v := ev]> (<[a := with_parent (Some v) ea]> hp))) a
  = (Return tt,
     mkSet th (<[nm := Some a]> dt) (<[a := with_parent (Some v) ea]> hp)).
Proof.
  intros Hv Ha Hnm Hc Hp.
  assert (Hne : v ≠ a) by congruence.
  unfold Undo; simpl.
  rewrite lookup_insert_ne by done. rewrite lookup_insert_eq. simpl.
  rewrite lookup_insert_eq. rewrite Hp, Hnm, Hc. rewrite lookup_insert_eq. simpl.
  rewrite insert_insert_eq.
  erewrite destroy_leaf; [| apply lookup_insert_eq | reflexivity].
  rewrite !delete_insert_eq.
  rewrite delete_id; [reflexivity |].
  rewrite lookup_insert_ne by done. exact Hv.
Qed.

(** *** Well-formedness is kept by [CreateEntry] *)

Lemma wf_empty id : wf (empty_set id).
Proof. intros nm p H. simpl in H. rewrite lookup_empty in H. discriminate. Qed.

Lemma wf_splice th dt hp nm a ea k v ev :
  wf (mkSet th dt hp) ->
  hp !! v = None -> hp !! a = Some ea -> chain hp a k ->
  child ev = Some a -> name ev = nm ->
  wf (mkSet th (<[nm := Some v]> dt)
        (<[v := ev]> (<[a := with_parent (Some v) ea]> hp))).
Proof.
  intros Hwf Hv Ha Hch Hc Hnm.
  assert (Hext : extends hp (<[v := ev]> (<[a := with_parent (Some v) ea]> hp))).
  { eapply extends_trans.
    - apply (extends_insert_same hp a ea (with_parent (Some v) ea)); done.
    - apply extends_insert_fresh. rewrite lookup_insert_ne; [done | congruence]. }
  intros n p Hp. simpl in *.
  destruct (decide (nm = n)) as [<- | Hne].
  - rewrite lookup_insert_eq in Hp. injection Hp as <-.
    exists v, ev, (S k). repeat split; try done.
    + apply lookup_insert_eq.
    + eapply chain_link; [apply lookup_insert_eq | exact Hc |].
      eapply extends_chain; eassumption.
  - rewrite lookup_insert_ne in Hp by done.
    destruct (Hwf _ _ Hp) as (b & eb & kb & -> & Hb & Hnb & Hcb).
    destruct (Hext _ _ Hb) as (eb' & Hb' & Hn' & _).
    exists b, eb', kb. repeat split; try done; [congruence |].
    eapply extends_chain; eassumption.
Qed.

Lemma CreateEntry_wf TIS S T nm value r S' T' :
  wf S -> name value = nm ->
  CreateEntry TIS nm value (S, T) = (r, (S', T')) -> wf S'.
Proof.
  intros Hwf Hnm Hrun.
  destruct (CreateEntry_cases TIS S T nm value)
    as [Hd | [[Hd Hu] | [(a & Hd & Hh & Hu) | (a & cur & Hd & Hh & Hc)]]].
  - rewrite (CreateEntry_new TIS S T nm value Hd) in Hrun.
    injection Hrun as _ <- _. destruct S as [th dt hp]; simpl in *.
    set (d := fresh (dom hp)) in *.
    set (dummy := mkEntry nm 0 true None None (Some th)) in *.
    assert (Hdn : hp !! d = None) by apply fresh_lookup.
    rewrite <- (insert_insert_eq hp d (with_parent _ dummy) dummy).
    apply (wf_splice th dt (<[d := dummy]> hp) nm d dummy 0%nat).
    + intros n p Hp. destruct (Hwf _ _ Hp) as (b & eb & kb & -> & Hb & Hnb & Hcb).
      simpl in *. exists b, eb, kb. repeat split; try done.
      * rewrite lookup_insert_ne; [done | congruence].
      * eapply extends_chain; [| exact Hcb]. by apply extends_insert_fresh.
    + apply fresh_lookup.
    + apply lookup_insert_eq.
    + eapply chain_last; [apply lookup_insert_eq | reflexivity].
    + reflexivity.
    + exact Hnm.
  - rewrite Hu in Hrun. by injection Hrun as _ <- _.
  - rewrite Hu in Hrun. by injection Hrun as _ <- _.
  - destruct Hc as [Hc | [[Hc Hdel] | [Hc Hdel]]].
    + rewrite (CreateEntry_conflict TIS S T nm value a cur Hd Hh Hc) in Hrun.
      by injection Hrun as _ <- _.
    + rewrite (CreateEntry_live TIS S T nm value a cur Hd Hh Hc Hdel) in Hrun.
      by injection Hrun as _ <- _.
    + rewrite (CreateEntry_replace TIS S T nm value a cur Hd Hh Hc Hdel) in Hrun.
      injection Hrun as _ <- _. destruct S as [th dt hp]; simpl in *.
      destruct (Hwf _ _ Hd) as (b & eb & kb & Hb & Hhb & _ & Hcb).
      injection Hb as <-.
      apply (wf_splice th dt hp nm a cur kb); try done.
      apply fresh_lookup.
Qed.

(** *** The properties *)

(** C1. When the newest version of [nm] is committed (timestamp below
    [TRANSACTION_ID_START]) and not deleted, [CreateEntry] returns
    [false] without raising; when the newest version is uncommitted
    (timestamp at or above [TRANSACTION_ID_START]), it throws the
    write-write conflict. *)
Theorem CreateEntry_live_false_uncommitted_conflict
    TIS S T nm value a cur :
  data S !! nm = Some (Some a) -> heap S !! a = Some cur ->
  (timestamp cur < TIS -> deleted cur = false ->
     CreateEntry TIS nm value (S, T) = (Return false, (S, T)))
  /\ (TIS <= timestamp cur ->
     CreateEntry TIS nm value (S, T)
     = (Throw (TransactionException "Catalog write-write conflict!"), (S, T))).
Proof.
  intros Hd Hh. split.
  - intros Hts Hdel. eapply CreateEntry_live; eassumption.
  - intros Hts. eapply CreateEntry_conflict; eassumption.
Qed.

Lemma CreateEntry_live_false_uncommitted_conflict_witness :
  CreateEntry TIS0 "tbl" tbl (set_committed, txn2)
    = (Return false, (set_committed, txn2))
  /\ CreateEntry TIS0 "tbl" tbl (set_created, txn2)
    = (Throw (TransactionException "Catalog write-write conflict!"),
       (set_created, txn2)).
Proof.
  split.
  - apply (proj1 (CreateEntry_live_false_uncommitted_conflict TIS0 set_committed
             txn2 "tbl" tbl 1%nat
             (mkEntry "tbl" 3 false (Some 0%nat) None (Some 0%nat))
             eq_refl eq_refl)); reflexivity.
  - apply (proj2 (CreateEntry_live_false_uncommitted_conflict TIS0 set_created
             txn2 "tbl" tbl 1%nat
             (mkEntry "tbl" 4294967297 false (Some 0%nat) None (Some 0%nat))
             eq_refl eq_refl)). vm_compute. discriminate.
Defined.

(** C2 fails on the code: the head of ["tbl"] is the uncommitted version
    that [txn1] itself created, and a second [CreateEntry] by [txn1]
    throws the write-write conflict instead of succeeding. *)
Lemma CreateEntry_own_head_throws :
  data set_created !! "tbl" = Some (Some 1%nat)
  /\ (exists cur, heap set_created !! 1%nat = Some cur
        /\ timestamp cur = transaction_id txn1_created)
  /\ fst (CreateEntry TIS0 "tbl" tbl (set_created, txn1_created))
     = Throw (TransactionException "Catalog write-write conflict!")
  /\ fst (CreateEntry TIS0 "tbl" tbl (set_created, txn1_created)) <> Return true.
Proof.
  split; [reflexivity |]. split.
  - eexists. split; reflexivity.
  - split; [reflexivity | discriminate].
Qed.

(** C2, as the code has it.  An uncommitted head is a conflict also for
    the transaction that wrote it: when the head's timestamp is the
    transaction id of [T] (transaction ids start at
    [TRANSACTION_ID_START]), [CreateEntry] throws the write-write
    conflict and changes nothing. *)
Theorem CreateEntry_own_uncommitted_head_conflict
    TIS S T nm value a cur :
  data S !! nm = Some (Some a) -> heap S !! a = Some cur ->
  timestamp cur = transaction_id T -> TIS <= transaction_id T ->
  CreateEntry TIS nm value (S, T)
  = (Throw (TransactionException "Catalog write-write conflict!"), (S, T)).
Proof.
  intros Hd Hh Hown Hid. eapply CreateEntry_conflict; [eassumption .. | lia].
Qed.

Lemma CreateEntry_own_uncommitted_head_conflict_witness :
  CreateEntry TIS0 "tbl" tbl (set_created, txn1_created)
  = (Throw (TransactionException "Catalog write-write conflict!"),
     (set_created, txn1_created)).
Proof.
  apply (CreateEntry_own_uncommitted_head_conflict TIS0 set_created txn1_created
           "tbl" tbl 1%nat
           (mkEntry "tbl" 4294967297 false (Some 0%nat) None (Some 0%nat))
           eq_refl eq_refl eq_refl).
  vm_compute. discriminate.
Defined.

(** C3 on the code: [DropEntry] is a stub.  [txn1] sees the live version
    of ["tbl"] it created; [DropEntry] returns [false], prepends nothing,
    and the entry still exists for [txn1] afterwards. *)
Theorem DropEntry_keeps_live_entry :
  EntryExists 1 set_created txn1_created "tbl" = Return true
  /\ DropEntry "tbl" (set_created, txn1_created)
     = (Return false, (set_created, txn1_created))
  /\ EntryExists 1 (fst (snd (DropEntry "tbl" (set_created, txn1_created))))
       txn1_created "tbl" = Return true.
Proof. repeat split; reflexivity. Qed.

(** C4. [CreateEntry] on a name that was never seen puts a dummy node
    (deleted, timestamp 0) under the new version; a different
    transaction [T2] that started before [T] commits gets no entry from
    [GetEntry] and [false] from [EntryExists] while [T] is in flight. *)
Theorem CreateEntry_new_name_hidden_from_others
    TIS S T nm value T2 fuel :
  data S !! nm = None ->
  TIS <= transaction_id T ->
  start_time T2 < TIS ->
  transaction_id T2 <> transaction_id T ->
  (1 <= fuel)%nat ->
  exists S1 T1 v ev d ed,
    CreateEntry TIS nm value (S, T) = (Return true, (S1, T1))
    /\ data S1 !! nm = Some (Some v)
    /\ heap S1 !! v = Some ev /\ child ev = Some d
    /\ timestamp ev = transaction_id T
    /\ heap S1 !! d = Some ed /\ timestamp ed = 0 /\ deleted ed = true
    /\ child ed = None
    /\ GetEntry fuel S1 T2 nm = Return None
    /\ EntryExists fuel S1 T2 nm = Return false.
Proof.
  intros Hd Hid Hstart Hother Hfuel.
  pose proof (CreateEntry_new TIS S T nm value Hd) as Hrun. cbv zeta in Hrun.
  set (d := fresh (dom (heap S))) in *.
  set (dummy := mkEntry nm 0 true None None (Some (this S))) in *.
  set (v := fresh (dom (<[d := dummy]> (heap S)))) in *.
  assert (Hvd : v ≠ d) by (apply (fresh_ne _ d dummy), lookup_insert_eq).
  eexists _, _, v, (new_version S T value d), d, (with_parent (Some v) dummy).
  split; [exact Hrun |]. simpl.
  assert (Hv : (<[v := new_version S T value d]>
                  (<[d := with_parent (Some v) dummy]> (heap S))) !! v
               = Some (new_version S T value d)) by apply lookup_insert_eq.
  assert (Hdd : (<[v := new_version S T value d]>
                  (<[d := with_parent (Some v) dummy]> (heap S))) !! d
               = Some (with_parent (Some v) dummy)).
  { rewrite lookup_insert_ne by done. apply lookup_insert_eq. }
  repeat split; try done.
  - apply lookup_insert_eq.
  - unfold GetEntry; simpl. rewrite lookup_insert_eq.
    destruct fuel as [| fuel]; [lia |]. simpl. rewrite Hv. simpl.
    destruct (Z.eqb_spec (transaction_id T) (transaction_id T2)); [congruence |].
    destruct (Z.ltb_spec (transaction_id T) (start_time T2)); [lia |].
    destruct fuel; simpl; rewrite Hdd; simpl; rewrite Hdd; reflexivity.
  - unfold EntryExists; simpl. rewrite lookup_insert_eq.
    destruct fuel as [| fuel]; [lia |]. simpl. rewrite Hv. simpl.
    destruct (Z.eqb_spec (transaction_id T) (transaction_id T2)); [congruence |].
    destruct (Z.ltb_spec (transaction_id T) (start_time T2)); [lia |].
    destruct fuel; simpl; rewrite Hdd; simpl; rewrite Hdd; reflexivity.
Qed.

Lemma CreateEntry_new_name_hidden_from_others_witness :
  exists S1 T1 v ev d ed,
    CreateEntry TIS0 "tbl" tbl (empty_set 0, txn1) = (Return true, (S1, T1))
    /\ data S1 !! "tbl" = Some (Some v)
    /\ heap S1 !! v = Some ev /\ child ev = Some d
    /\ timestamp ev = transaction_id txn1
    /\ heap S1 !! d = Some ed /\ timestamp ed = 0 /\ deleted ed = true
    /\ child ed = None
    /\ GetEntry 1 S1 txn2 "tbl" = Return None
    /\ EntryExists 1 S1 txn2 "tbl" = Return false.
Proof.
  apply (CreateEntry_new_name_hidden_from_others TIS0 (empty_set 0) txn1 "tbl"
           tbl txn2 1%nat).
  - reflexivity.
  - vm_compute. discriminate.
  - reflexivity.
  - vm_compute. discriminate.
  - lia.
Defined.

Lemma EntryExists_loop_GetEntry_loop fuel h T : forall a,
  EntryExists_loop fuel h T a = GetEntry_loop fuel h T a.
Proof.
  induction fuel as [| fuel IH]; intros a; simpl; [reflexivity |].
  destruct (h !! a) as [e|]; [| reflexivity].
  destruct (child e); [| reflexivity].
  repeat case_match; first [reflexivity | apply IH].
Qed.

Lemma EntryExists_as_GetEntry fuel S T nm :
  EntryExists fuel S T nm = outcome_map not_null (GetEntry fuel S T nm).
Proof.
  unfold EntryExists, GetEntry.
  destruct (data S !! nm) as [[a|]|]; try reflexivity.
  rewrite EntryExists_loop_GetEntry_loop.
  destruct (GetEntry_loop fuel (heap S) T a) as [cur| | | |]; try reflexivity.
  destruct (heap S !! cur) as [e|]; [| reflexivity].
  destruct (deleted e); reflexivity.
Qed.

(** On a well-formed set both reads return once the fuel covers the
    length of the chain. *)
Lemma GetEntry_returns S T nm :
  wf S -> exists k, forall fuel, (k <= fuel)%nat ->
    exists r, GetEntry fuel S T nm = Return r.
Proof.
  intros Hwf. unfold GetEntry.
  destruct (data S !! nm) as [p|] eqn:Hp; [| exists 0%nat; eauto].
  destruct (Hwf _ _ Hp) as (a & e & k & -> & Ha & _ & Hch).
  exists k. intros fuel Hk.
  destruct (GetEntry_loop_returns _ T _ _ Hch fuel Hk) as [cur Hcur].
  rewrite Hcur. destruct (GetEntry_loop_in _ _ _ _ _ Hcur) as [ec ->].
  destruct (deleted ec); eauto.
Qed.

(** [Undo] after [CreateEntry]: the reads agree with those before the
    call at every amount of fuel. *)
Lemma CreateEntry_Undo_reads_agree
    TIS S T nm value S1 T1 :
  wf S -> parent value = None ->
  CreateEntry TIS nm value (S, T) = (Return true, (S1, T1)) ->
  exists pushed S2,
    undo_buffer T1 = undo_buffer T ++ [pushed]
    /\ Undo S1 pushed = (Return tt, S2)
    /\ forall fuel T' n',
         GetEntry fuel S2 T' n' = GetEntry fuel S T' n'
         /\ EntryExists fuel S2 T' n' = EntryExists fuel S T' n'.
Proof.
  intros Hwf Hpar Hrun.
  destruct (CreateEntry_cases TIS S T nm value)
    as [Hd | [[Hd Hu] | [(a & Hd & Hh & Hu) | (a & cur & Hd & Hh & Hc)]]].
  - (* the name is new: the dummy node stays behind as head *)
    rewrite (CreateEntry_new TIS S T nm value Hd) in Hrun.
    injection Hrun as <- <-.
    set (d := fresh (dom (heap S))) in *.
    set (dummy := mkEntry nm 0 true None None (Some (this S))) in *.
    set (v := fresh (dom (<[d := dummy]> (heap S)))) in *.
    assert (Hdn : heap S !! d = None) by apply fresh_lookup.
    assert (Hvn : (<[d := dummy]> (heap S)) !! v = None) by apply fresh_lookup.
    exists d. eexists. split; [reflexivity |]. split.
    { rewrite <- (insert_insert_eq (heap S) d (with_parent _ dummy) dummy).
      apply Undo_splice; try done. apply lookup_insert_eq. }
    rewrite insert_insert_eq.
    assert (Hext : extends (heap S) (<[d := with_parent (Some v) dummy]> (heap S)))
      by (by apply extends_insert_fresh).
    intros fuel T' n'. destruct (decide (nm = n')) as [<- | Hne].
    + unfold GetEntry, EntryExists; simpl. rewrite Hd, lookup_insert_eq.
      destruct fuel; simpl; rewrite lookup_insert_eq; simpl;
        rewrite lookup_insert_eq; split; reflexivity.
    + split; [apply GetEntry_extends | apply EntryExists_extends]; try done;
        simpl; by rewrite lookup_insert_ne.
  - rewrite Hu in Hrun. discriminate.
  - rewrite Hu in Hrun. discriminate.
  - destruct Hc as [Hc | [[Hc Hdel] | [Hc Hdel]]].
    + rewrite (CreateEntry_conflict TIS S T nm value a cur Hd Hh Hc) in Hrun.
      discriminate.
    + rewrite (CreateEntry_live TIS S T nm value a cur Hd Hh Hc Hdel) in Hrun.
      discriminate.
    + (* the name had a committed deleted head, which is head again *)
      rewrite (CreateEntry_replace TIS S T nm value a cur Hd Hh Hc Hdel) in Hrun.
      injection Hrun as <- <-.
      set (v := fresh (dom (heap S))) in *.
      destruct (Hwf _ _ Hd) as (b & eb & kb & Hb & Hhb & Hnb & _).
      injection Hb as <-. assert (eb = cur) as -> by congruence.
      exists a. eexists. split; [reflexivity |]. split.
      { apply Undo_splice; try done. apply fresh_lookup. }
      assert (Hext : extends (heap S) (<[a := with_parent (Some v) cur]> (heap S)))
        by (by apply (extends_insert_same (heap S) a cur)).
      intros fuel T' n'.
      split; [apply GetEntry_extends | apply EntryExists_extends]; try done;
        simpl; (destruct (decide (nm = n')) as [<- | Hne];
                [by rewrite lookup_insert_eq | by rewrite lookup_insert_ne]).
Qed.

(** C5. After a successful [CreateEntry] on a well-formed set, [Undo]
    of the node that the call pushed into the undo buffer succeeds, and
    afterwards [GetEntry] and [EntryExists] give, for every transaction
    and every name, what they gave before the [CreateEntry]: the same
    outcome at every amount of fuel, and a returned result, the same
    before and after, once the fuel covers the chain. *)
Theorem CreateEntry_Undo_restores_reads
    TIS S T nm value S1 T1 :
  wf S -> parent value = None ->
  CreateEntry TIS nm value (S, T) = (Return true, (S1, T1)) ->
  exists pushed S2,
    undo_buffer T1 = undo_buffer T ++ [pushed]
    /\ Undo S1 pushed = (Return tt, S2)
    /\ forall T' n',
         (forall fuel,
            GetEntry fuel S2 T' n' = GetEntry fuel S T' n'
            /\ EntryExists fuel S2 T' n' = EntryExists fuel S T' n')
         /\ exists k, forall fuel, (k <= fuel)%nat ->
              exists r,
                GetEntry fuel S T' n' = Return r
                /\ GetEntry fuel S2 T' n' = Return r
                /\ EntryExists fuel S T' n' = Return (not_null r)
                /\ EntryExists fuel S2 T' n' = Return (not_null r).
Proof.
  intros Hwf Hpar Hrun.
  destruct (CreateEntry_Undo_reads_agree TIS S T nm value S1 T1 Hwf Hpar Hrun)
    as (pushed & S2 & Hbuf & Hundo & Hsame).
  exists pushed, S2. split; [exact Hbuf |]. split; [exact Hundo |].
  intros T' n'. split; [intros fuel; apply Hsame |].
  destruct (GetEntry_returns S T' n' Hwf) as [k Hk]. exists k.
  intros fuel Hfuel. destruct (Hk fuel Hfuel) as [r Hr]. exists r.
  destruct (Hsame fuel T' n') as [Hget Hex].
  assert (Hbefore : EntryExists fuel S T' n' = Return (not_null r))
    by (by rewrite EntryExists_as_GetEntry, Hr).
  repeat split; congruence.
Qed.

Lemma CreateEntry_Undo_restores_reads_witness :
  exists pushed S2,
    undo_buffer txn1_created = undo_buffer txn1 ++ [pushed]
    /\ Undo set_created pushed = (Return tt, S2)
    /\ forall T' n',
         (forall fuel,
            GetEntry fuel S2 T' n' = GetEntry fuel (empty_set 0) T' n'
            /\ EntryExists fuel S2 T' n' = EntryExists fuel (empty_set 0) T' n')
         /\ exists k, forall fuel, (k <= fuel)%nat ->
              exists r,
                GetEntry fuel (empty_set 0) T' n' = Return r
                /\ GetEntry fuel S2 T' n' = Return r
                /\ EntryExists fuel (empty_set 0) T' n' = Return (not_null r)
                /\ EntryExists fuel S2 T' n' = Return (not_null r).
Proof.
  apply (CreateEntry_Undo_restores_reads TIS0 (empty_set 0) txn1 "tbl" tbl
           set_created txn1_created).
  - intros nm p H. simpl in H. rewrite lookup_empty in H. discriminate.
  - reflexivity.
  - reflexivity.
Defined.

(** C9. [EntryExists] answers [true] exactly when [GetEntry] answers a
    non-null entry: for every amount of fuel the outcome of
    [EntryExists] is the outcome of [GetEntry] with the pointer replaced
    by "is not null". *)
Theorem EntryExists_iff_GetEntry fuel S T nm :
  EntryExists fuel S T nm = outcome_map not_null (GetEntry fuel S T nm)
  /\ (EntryExists fuel S T nm = Return true
      <-> exists e, GetEntry fuel S T nm = Return (Some e)).
Proof.
  pose proof (EntryExists_as_GetEntry fuel S T nm) as Heq.
  split; [exact Heq |]. rewrite Heq.
  destruct (GetEntry fuel S T nm) as [[e|]| | | |]; simpl; split;
    try discriminate; try (intros [e' He']; discriminate); eauto.
Qed.

(** C10. A [CreateEntry] that returns [false] or throws leaves the set
    and the transaction as they were: no dummy node, no splice, nothing
    pushed into the undo buffer. *)
Theorem CreateEntry_failure_atomic TIS S T nm value :
  fst (CreateEntry TIS nm value (S, T)) = Return false
  \/ (exists e, fst (CreateEntry TIS nm value (S, T)) = Throw e) ->
  snd (CreateEntry TIS nm value (S, T)) = (S, T).
Proof.
  intros Hfail.
  assert (Hnot : fst (CreateEntry TIS nm value (S, T)) <> Return true)
    by (destruct Hfail as [-> | [e ->]]; discriminate).
  destruct (CreateEntry_cases TIS S T nm value)
    as [Hd | [[Hd Hu] | [(a & Hd & Hh & Hu) | (a & cur & Hd & Hh & Hc)]]].
  - rewrite (CreateEntry_new TIS S T nm value Hd) in Hnot. by destruct Hnot.
  - by rewrite Hu.
  - by rewrite Hu.
  - destruct Hc as [Hc | [[Hc Hdel] | [Hc Hdel]]].
    + by rewrite (CreateEntry_conflict TIS S T nm value a cur Hd Hh Hc).
    + by rewrite (CreateEntry_live TIS S T nm value a cur Hd Hh Hc Hdel).
    + rewrite (CreateEntry_replace TIS S T nm value a cur Hd Hh Hc Hdel) in Hnot.
      by destruct Hnot.
Qed.

Lemma CreateEntry_failure_atomic_witness :
  snd (CreateEntry TIS0 "tbl" tbl (set_committed, txn2)) = (set_committed, txn2)
  /\ snd (CreateEntry TIS0 "tbl" tbl (set_created, txn2)) = (set_created, txn2).
Proof.
  split.
  - apply (CreateEntry_failure_atomic TIS0 set_committed txn2 "tbl" tbl).
    left. reflexivity.
  - apply (CreateEntry_failure_atomic TIS0 set_created txn2 "tbl" tbl).
    right. eexists. reflexivity.
Defined.

End CatalogFacts.

(** ** Properties of column segments *)

Module SegmentFacts.

Import Catalog Segment.

Lemma StronglySorted_lookup_lt (l : list Z) :
  StronglySorted Z.lt l -> forall i j x y, (i < j)%nat ->
  l !! i = Some x -> l !! j = Some y -> x < y.
Proof.
  induction 1 as [| a l Hs IH Hall]; intros i j x y Hij Hi Hj.
  - rewrite lookup_nil in Hi. discriminate.
  - destruct j as [| j]; [lia |]. simpl in Hj. destruct i as [| i].
    + simpl in Hi. injection Hi as <-.
      rewrite Forall_forall in Hall. apply Hall.
      apply list_elem_of_lookup. eauto.
    + simpl in Hi. apply (IH i j); [lia | done | done].
Qed.

Lemma StronglySorted_lookup_le (l : list Z) i j x y :
  StronglySorted Z.lt l -> (i <= j)%nat ->
  l !! i = Some x -> l !! j = Some y -> x <= y.
Proof.
  intros Hs Hij Hi Hj. destruct (decide (i = j)) as [-> | Hne].
  - assert (x = y) by congruence. lia.
  - assert (x < y); [| lia].
    apply (StronglySorted_lookup_lt l Hs i j); [lia | done | done].
Qed.

(** The merge loop reaches a common element that lies ahead. *)
Lemma conflict_loop_throws ids count offset info i0 j0 x t :
  count = length ids -> N info = length (tuples info) ->
  StronglySorted Z.lt ids -> StronglySorted Z.lt (tuples info) ->
  ids !! i0 = Some x -> tuples info !! j0 = Some t -> x - offset = t ->
  forall fuel i j, (i <= i0)%nat -> (j <= j0)%nat ->
    ((i0 - i) + (j0 - j) < fuel)%nat ->
    conflict_loop fuel ids count offset info i j = Throw conflict.
Proof.
  intros Hcount HN Hsi Hst Hx Ht Heq.
  pose proof (lookup_lt_Some _ _ _ Hx) as Hi0.
  pose proof (lookup_lt_Some _ _ _ Ht) as Hj0.
  induction fuel as [| fuel IH]; intros i j Hi Hj Hfuel; [lia |].
  cbn [conflict_loop].
  destruct (lookup_lt_is_Some_2 ids i) as [a Ha]; [lia |].
  destruct (lookup_lt_is_Some_2 (tuples info) j) as [b Hb]; [lia |].
  rewrite Ha, Hb.
  pose proof (StronglySorted_lookup_le _ _ _ _ _ Hsi Hi Ha Hx) as Hax.
  pose proof (StronglySorted_lookup_le _ _ _ _ _ Hst Hj Hb Ht) as Hbt.
  destruct (Z.eqb_spec (a - offset) b) as [| Hne]; [reflexivity |].
  destruct (Z.ltb_spec (a - offset) b) as [Hlt | Hge].
  - assert (i <> i0) by (intros ->; assert (a = x) by congruence; lia).
    destruct (Nat.eqb_spec (S i) count); [lia |].
    apply IH; lia.
  - assert (j <> j0) by (intros ->; assert (b = t) by congruence; lia).
    destruct (Nat.eqb_spec (S j) (N info)); [lia |].
    apply IH; lia.
Qed.

(** Inside the arrays the merge loop ends, by return or by throw. *)
Lemma conflict_loop_total ids count offset info :
  count = length ids -> N info = length (tuples info) ->
  forall fuel i j, (i < count)%nat -> (j < N info)%nat ->
    ((count - i) + (N info - j) <= fuel)%nat ->
    conflict_loop fuel ids count offset info i j = Return tt
    \/ conflict_loop fuel ids count offset info i j = Throw conflict.
Proof.
  intros Hcount HN.
  induction fuel as [| fuel IH]; intros i j Hi Hj Hfuel; [lia |].
  cbn [conflict_loop].
  destruct (lookup_lt_is_Some_2 ids i) as [a Ha]; [lia |].
  destruct (lookup_lt_is_Some_2 (tuples info) j) as [b Hb]; [lia |].
  rewrite Ha, Hb.
  destruct (Z.eqb_spec (a - offset) b) as [| Hne]; [by right |].
  destruct (Z.ltb_spec (a - offset) b) as [Hlt | Hge].
  - destruct (Nat.eqb_spec (S i) count); [by left |]. apply IH; lia.
  - destruct (Nat.eqb_spec (S j) (N info)); [by left |]. apply IH; lia.
Qed.

(** Without a common element the merge loop returns. *)
Lemma conflict_loop_disjoint ids count offset info :
  count = length ids -> N info = length (tuples info) ->
  ~ overlaps ids offset info ->
  forall fuel i j, (i < count)%nat -> (j < N info)%nat ->
    ((count - i) + (N info - j) <= fuel)%nat ->
    conflict_loop fuel ids count offset info i j = Return tt.
Proof.
  intros Hcount HN Hdis.
  induction fuel as [| fuel IH]; intros i j Hi Hj Hfuel; [lia |].
  cbn [conflict_loop].
  destruct (lookup_lt_is_Some_2 ids i) as [a Ha]; [lia |].
  destruct (lookup_lt_is_Some_2 (tuples info) j) as [b Hb]; [lia |].
  rewrite Ha, Hb.
  destruct (Z.eqb_spec (a - offset) b) as [Heq | Hne].
  { destruct Hdis. exists a, b. repeat split; [| | done];
      apply list_elem_of_lookup; eauto. }
  destruct (Z.ltb_spec (a - offset) b) as [Hlt | Hge].
  - destruct (Nat.eqb_spec (S i) count); [done |]. apply IH; lia.
  - destruct (Nat.eqb_spec (S j) (N info)); [done |]. apply IH; lia.
Qed.

(** The bound given to the merge loop is never reached. *)
Lemma conflict_loop_fuel ids count offset info :
  forall fuel i j,
    ((length ids - i) + (length (tuples info) - j) < fuel)%nat ->
    conflict_loop fuel ids count offset info i j <> OutOfFuel.
Proof.
  induction fuel as [| fuel IH]; intros i j Hfuel; [lia |].
  cbn [conflict_loop].
  destruct (ids !! i) as [a |] eqn:Ha; [| discriminate].
  destruct (tuples info !! j) as [b |] eqn:Hb; [| discriminate].
  apply lookup_lt_Some in Ha, Hb.
  destruct (a - offset =? b); [discriminate |].
  destruct (a - offset <? b).
  - destruct (S i =? count)%nat; [discriminate |]. apply IH. lia.
  - destruct (S j =? N info)%nat; [discriminate |]. apply IH. lia.
Qed.

Lemma CheckForConflicts_unfold info T ids count offset node :
  CheckForConflicts info T ids count offset node
  = match
      (if version_number info =? transaction_id T then Return (Some info)
       else if start_time T <? version_number info then
         outcome_map (fun _ => node)
           (conflict_loop (S (length ids + length (tuples info)))
              ids count offset info 0 0)
       else Return node)
    with
    | Return node' =>
        match next info with
        | Some nx => CheckForConflicts nx T ids count offset node'
        | None => Return node'
        end
    | other => other
    end.
Proof. destruct info; reflexivity. Qed.

Lemma CheckForConflicts_fuel T ids count offset :
  forall info node, CheckForConflicts info T ids count offset node <> OutOfFuel.
Proof.
  induction info as [v n t | v n t nx IH] using UpdateInfo_chain_ind;
    intros node; rewrite CheckForConflicts_unfold;
    cbn [version_number tuples N next];
    (destruct (v =? transaction_id T); [first [discriminate | apply IH] |]);
    (destruct (start_time T <? v); [| first [discriminate | apply IH]]);
    match goal with
    | |- context [conflict_loop ?f ?a ?b ?c ?d ?i ?j] =>
        pose proof (conflict_loop_fuel a b c d f i j ltac:(simpl; lia));
        destruct (conflict_loop f a b c d i j); simpl;
        first [done | discriminate | apply IH]
    end.
Qed.

(** A concurrent node that shares no row with [ids] raises nothing: the
    check goes on with the next node, [node] unchanged. *)
Lemma CheckForConflicts_disjoint info T ids count offset node :
  count = length ids -> (1 <= count)%nat ->
  N info = length (tuples info) -> (1 <= N info)%nat ->
  concurrent T info -> ~ overlaps ids offset info ->
  CheckForConflicts info T ids count offset node
  = match next info with
    | Some nx => CheckForConflicts nx T ids count offset node
    | None => Return node
    end.
Proof.
  intros Hcount Hc1 HN HN1 [Hother Hnewer] Hdis.
  rewrite CheckForConflicts_unfold.
  destruct (Z.eqb_spec (version_number info) (transaction_id T)); [done |].
  destruct (Z.ltb_spec (start_time T) (version_number info)); [| lia].
  rewrite (conflict_loop_disjoint ids count offset info Hcount HN Hdis); [done | lia ..].
Qed.

(** A concurrent node in the chain that shares a row with [ids] makes
    the check throw. *)
Lemma CheckForConflicts_throws T ids count offset :
  count = length ids -> (1 <= count)%nat -> StronglySorted Z.lt ids ->
  forall info node,
    Forall node_ok (chain_nodes info) ->
    Exists (fun nd => concurrent T nd /\ overlaps ids offset nd) (chain_nodes info) ->
    CheckForConflicts info T ids count offset node = Throw conflict.
Proof.
  intros Hcount Hc1 Hsi.
  induction info as [v n t | v n t nx IH] using UpdateInfo_chain_ind;
    intros node Hok Hex; rewrite CheckForConflicts_unfold; cbn [chain_nodes next] in *;
    apply Forall_cons in Hok as [(HN & HN1 & Hst) Hok];
    apply Exists_cons in Hex as [[[Hother Hnewer] (x & y & Hx & Hy & Hxy)] | Hex];
    cbn [version_number tuples N next] in *.
  - destruct (Z.eqb_spec v (transaction_id T)); [done |].
    destruct (Z.ltb_spec (start_time T) v); [| lia].
    apply list_elem_of_lookup in Hx as [i0 Hi0], Hy as [j0 Hj0].
    pose proof (lookup_lt_Some _ _ _ Hi0). pose proof (lookup_lt_Some _ _ _ Hj0).
    rewrite (conflict_loop_throws ids count offset (mkUpdateInfo v n t None)
               i0 j0 x y); try done; lia.
  - by apply Exists_nil in Hex.
  - destruct (Z.eqb_spec v (transaction_id T)); [done |].
    destruct (Z.ltb_spec (start_time T) v); [| lia].
    apply list_elem_of_lookup in Hx as [i0 Hi0], Hy as [j0 Hj0].
    pose proof (lookup_lt_Some _ _ _ Hi0). pose proof (lookup_lt_Some _ _ _ Hj0).
    rewrite (conflict_loop_throws ids count offset (mkUpdateInfo v n t (Some nx))
               i0 j0 x y); try done; lia.
  - destruct (Z.eqb_spec v (transaction_id T)); [by apply IH |].
    destruct (Z.ltb_spec (start_time T) v); [| by apply IH].
    destruct (conflict_loop_total ids count offset (mkUpdateInfo v n t (Some nx))
                Hcount HN (S (length ids + length t)) 0 0) as [-> | ->];
      simpl; try lia; [by apply IH | done].
Qed.

Lemma ids_ascending_sorted (ids : list Z) :
  StronglySorted Z.lt ids ->
  forall n i, (1 <= i)%nat -> (i + n <= length ids)%nat ->
    ids_ascending n ids i = Return tt.
Proof.
  intros Hs. induction n as [| n IH]; intros i Hi Hn; [done |].
  cbn [ids_ascending].
  destruct (lookup_lt_is_Some_2 ids i) as [a Ha]; [lia |].
  destruct (lookup_lt_is_Some_2 ids (i - 1)) as [b Hb]; [lia |].
  rewrite Ha, Hb.
  pose proof (StronglySorted_lookup_lt ids Hs (i - 1) i b a ltac:(lia) Hb Ha).
  destruct (Z.ltb_spec b a); [| lia]. apply IH; lia.
Qed.

Lemma vector_offset_exact SVS first_id offset :
  0 < SVS -> - 2 ^ 63 <= offset -> offset <= first_id -> first_id < 2 ^ 63 ->
  vector_index_of SVS first_id offset = (first_id - offset) `div` SVS
  /\ to_row (vector_offset_of SVS first_id offset)
     = offset + (first_id - offset) `div` SVS * SVS.
Proof.
  intros HS Hlo Hle Hhi. unfold vector_offset_of, vector_index_of, to_idx, to_row.
  rewrite Z.quot_div_nonneg by lia.
  set (q := (first_id - offset) `div` SVS).
  assert (0 <= q) by (apply Z.div_pos; lia).
  assert (q * SVS <= first_id - offset) by (rewrite Z.mul_comm; apply Z.mul_div_le; lia).
  assert (q <= q * SVS) by nia.
  rewrite (Z.mod_small q) by lia.
  split; [done |].
  rewrite (Z.mod_small (q * SVS)) by lia.
  destruct (Z_lt_le_dec (offset + q * SVS) 0) as [Hneg | Hpos].
  - replace ((offset + q * SVS) mod 2 ^ 64) with (offset + q * SVS + 2 ^ 64).
    + rewrite <- (Z.mod_unique_pos _ (2 ^ 64) 1 (offset + q * SVS + 2 ^ 63)); lia.
    + apply (Z.mod_unique_pos _ (2 ^ 64) (-1)); lia.
  - rewrite (Z.mod_small (offset + q * SVS)) by lia.
    rewrite Z.mod_small; lia.
Qed.

(** *** What a computation leaves untouched *)

Lemma keeps_bind {St A B C} (f : St -> C) (c : M St A) (k : A -> M St B) :
  keeps f c -> (forall a, keeps f (k a)) -> keeps f (c ≫= k).
Proof.
  intros Hc Hk s. unfold mbind, M_bind, bind. specialize (Hc s).
  destruct (c s) as [[a | e | | |] s']; simpl in *; try done.
  rewrite Hk. done.
Qed.

Lemma keeps_ret {St A B} (f : St -> B) (a : A) : keeps f (mret a : M St A).
Proof. done. Qed.

Lemma keeps_get {St B} (f : St -> B) : keeps f (@get St).
Proof. done. Qed.

Lemma keeps_assert {St B} (f : St -> B) b : keeps f (@assert St b).
Proof. intros s. unfold assert. by destruct b. Qed.

Lemma keeps_lift {St A B} (f : St -> B) (o : outcome A) : keeps f (@lift St A o).
Proof. done. Qed.

Lemma keeps_read {St A B} (f : St -> B) (l : list A) i : keeps f (@read St A l i).
Proof. intros s. unfold read. by destruct (l !! i). Qed.

Lemma keeps_modify {St B} (f : St -> B) (g : St -> St) :
  (forall s, f (g s) = f s) -> keeps f (modify g).
Proof. intros Hg s. apply Hg. Qed.

Lemma Update_keeps_block_id MB SVS DEBUG T ids count offset :
  keeps block_id (Update MB SVS DEBUG T ids count offset).
Proof.
  unfold Update.
  apply keeps_bind; [apply keeps_get | intros seg].
  apply keeps_bind; [apply keeps_assert | intros _].
  apply keeps_bind; [destruct DEBUG; [apply keeps_lift | apply keeps_ret] | intros _].
  apply keeps_bind.
  { destruct (versions seg); [apply keeps_ret | by apply keeps_modify]. }
  intros _.
  apply keeps_bind; [apply keeps_read | intros first_id].
  apply keeps_bind; [apply keeps_assert | intros _].
  apply keeps_bind; [apply keeps_assert | intros _].
  apply keeps_bind; [apply keeps_get | intros seg1].
  apply keeps_bind; [apply keeps_read | intros slot].
  apply keeps_bind; [| intros node; apply keeps_ret].
  destruct slot; [apply keeps_lift | apply keeps_ret].
Qed.

(** [Update] on a segment that has its versions array, up to the
    conflict check. *)
Lemma Update_runs_check MB SVS DEBUG T ids count offset seg vs slot first_id :
  MB <= block_id seg -> 0 < SVS ->
  count = length ids -> ids !! 0%nat = Some first_id ->
  StronglySorted Z.lt ids ->
  - 2 ^ 63 <= offset -> offset <= first_id -> first_id < 2 ^ 63 ->
  (first_id - offset) `div` SVS < Z.of_nat (max_vector_count seg) ->
  versions seg = Some vs ->
  vs !! Z.to_nat ((first_id - offset) `div` SVS) = Some slot ->
  Update MB SVS DEBUG T ids count offset seg
  = (outcome_map
       (Update_vector (Z.to_nat ((first_id - offset) `div` SVS))
                      (vector_offset_of SVS first_id offset))
       match slot with
       | Some info =>
           CheckForConflicts info T ids count
             (offset + (first_id - offset) `div` SVS * SVS) None
       | None => Return None
       end,
     seg).
Proof.
  intros Hblock HS Hcount Hfirst Hsorted Hlo Hle Hhi Hidx Hvs Hslot.
  destruct (vector_offset_exact SVS first_id offset HS Hlo Hle Hhi) as [Hvi Hvo].
  assert (Hcnt : (1 <= length ids)%nat) by (apply lookup_lt_Some in Hfirst; lia).
  unfold Update, mbind, M_bind, bind, get, assert, lift, read, mret, M_ret, ret.
  destruct (Z.leb_spec MB (block_id seg)); [| lia].
  rewrite (ids_ascending_sorted ids Hsorted (count - 1) 1) by lia.
  destruct DEBUG; rewrite Hvs, Hfirst;
    (destruct (Z.leb_spec offset first_id); [| lia]);
    rewrite Hvi;
    (destruct (Z.ltb_spec ((first_id - offset) `div` SVS)
                (Z.of_nat (max_vector_count seg))); [| lia]);
    rewrite Hvs; simpl; rewrite Hslot, Hvo;
    destruct slot as [info |]; try reflexivity; subst count;
    destruct (CheckForConflicts info T ids (length ids)
                (offset + (first_id - offset) `div` SVS * SVS) None);
    reflexivity.
Qed.

(** *** The properties *)

(** C6. [Update] on rows [ids] of one vector, whose chain starts at
    [info]: if some node of the chain was written by a concurrent
    transaction (version number other than the transaction id and above
    the start time) and a row of [ids], taken relative to the vector
    offset, is among that node's tuples, [Update] throws the update
    conflict; a concurrent node that shares no row with [ids] raises
    nothing and the check goes on with the next node of the chain. *)
Theorem Update_conflict_check
    MB SVS DEBUG T ids count offset seg vs info first_id :
  MB <= block_id seg -> 0 < SVS ->
  count = length ids -> ids !! 0%nat = Some first_id ->
  StronglySorted Z.lt ids ->
  - 2 ^ 63 <= offset -> offset <= first_id -> first_id < 2 ^ 63 ->
  (first_id - offset) `div` SVS < Z.of_nat (max_vector_count seg) ->
  versions seg = Some vs ->
  vs !! Z.to_nat ((first_id - offset) `div` SVS) = Some (Some info) ->
  Forall node_ok (chain_nodes info) ->
  (Exists (fun nd => concurrent T nd
                     /\ overlaps ids (vector_start SVS first_id offset) nd)
          (chain_nodes info) ->
   Update MB SVS DEBUG T ids count offset seg = (Throw conflict, seg))
  /\ (forall nd node,
        nd ∈ chain_nodes info -> concurrent T nd ->
        ~ overlaps ids (vector_start SVS first_id offset) nd ->
        CheckForConflicts nd T ids count (vector_start SVS first_id offset) node
        = match next nd with
          | Some nx =>
              CheckForConflicts nx T ids count
                (vector_start SVS first_id offset) node
          | None => Return node
          end).
Proof.
  intros Hblock HS Hcount Hfirst Hsorted Hlo Hle Hhi Hidx Hvs Hslot Hok.
  assert (Hcnt : (1 <= count)%nat) by (apply lookup_lt_Some in Hfirst; lia).
  split.
  - intros Hex.
    rewrite (Update_runs_check MB SVS DEBUG T ids count offset seg vs
               (Some info) first_id) by done.
    fold (vector_start SVS first_id offset).
    rewrite (CheckForConflicts_throws T ids count _ Hcount Hcnt Hsorted info None Hok Hex).
    reflexivity.
  - intros nd node Hin Hconc Hdis.
    rewrite Forall_forall in Hok. destruct (Hok nd Hin) as (HN & HN1 & _).
    by apply CheckForConflicts_disjoint.
Qed.

Lemma Update_conflict_check_witness :
  Update MB0 SVS0 true txn2 [5; 9] 2 0 seg_v0 = (Throw conflict, seg_v0)
  /\ CheckForConflicts info_txn1 txn2 [4; 9] 2 0 None = Return None.
Proof.
  assert (Hok : Forall node_ok (chain_nodes info_head)).
  { repeat constructor; simpl; lia. }
  split.
  - apply (proj1 (Update_conflict_check MB0 SVS0 true txn2 [5; 9] 2 0 seg_v0
             [Some info_head; None] info_head 5
             ltac:(reflexivity) ltac:(reflexivity) eq_refl eq_refl
             ltac:(repeat constructor) ltac:(vm_compute; discriminate)
             ltac:(vm_compute; discriminate) ltac:(reflexivity)
             ltac:(reflexivity) eq_refl eq_refl Hok)).
    apply Exists_cons_tl, Exists_cons_hd. split.
    + split; [vm_compute; discriminate | reflexivity].
    + exists 5, 5. repeat split; [apply list_elem_of_here | ].
      apply list_elem_of_further, list_elem_of_here.
  - apply (proj2 (Update_conflict_check MB0 SVS0 true txn2 [4; 9] 2 0 seg_v0
             [Some info_head; None] info_head 4
             ltac:(reflexivity) ltac:(reflexivity) eq_refl eq_refl
             ltac:(repeat constructor) ltac:(vm_compute; discriminate)
             ltac:(vm_compute; discriminate) ltac:(reflexivity)
             ltac:(reflexivity) eq_refl eq_refl Hok) info_txn1 None).
    + apply list_elem_of_further, list_elem_of_here.
    + split; [vm_compute; discriminate | reflexivity].
    + intros (x & t & Hx & Ht & Hxt). vm_compute in Hxt.
      apply list_elem_of_In in Hx, Ht. simpl in Hx, Ht.
      destruct Hx as [<- | [<- | []]], Ht as [<- | [<- | []]]; discriminate.
Defined.

(** C7 fails on the code: [Update] on a segment over a disk block does
    not promote it.  The first assertion fails, and the block id is
    still below [MAXIMUM_BLOCK] after the call. *)
Lemma Update_on_disk_block_not_promoted :
  block_id seg_disk < MB0
  /\ Update MB0 SVS0 true txn1 [5] 1 0 seg_disk = (AssertionFailure, seg_disk)
  /\ block_id (snd (Update MB0 SVS0 true txn1 [5] 1 0 seg_disk)) < MB0.
Proof. repeat split. Qed.

(** [ToTemporary] on a segment over a disk block, in closed form. *)
Lemma ToTemporary_disk MB new_id seg mgr :
  block_id seg < MB ->
  ToTemporary MB new_id (seg, mgr)
  = match blocks mgr !! block_id seg with
    | None => (Undefined, (seg, mgr))
    | Some buffer =>
        if MB <=? new_id then
          (Return tt,
           (with_block_id new_id seg,
            mkManager (<[new_id := buffer]> (<[new_id := []]> (blocks mgr)))))
        else (AssertionFailure, (seg, mgr))
    end.
Proof.
  intros Hdisk.
  unfold ToTemporary, Allocate, Pin, mbind, M_bind, bind, get, assert, modify,
    mret, M_ret, ret.
  cbv [fst snd].
  destruct (Z.leb_spec MB (block_id seg)); [lia |].
  destruct (blocks mgr !! block_id seg); [| reflexivity].
  destruct (MB <=? new_id); reflexivity.
Qed.

(** C7, as the code has it.  [Update] does not call [ToTemporary]: on a
    segment with [block_id < MAXIMUM_BLOCK] its first assertion fails
    and the segment is left as it was, and no call of [Update] changes
    [block_id].  The promotion is [ToTemporary]'s, to be run before
    [Update]: whenever it returns, [block_id >= MAXIMUM_BLOCK] and the
    new block has the contents of the old one. *)
Theorem Update_requires_temporary_block
    MB SVS DEBUG T ids count offset seg new_id mgr :
  block_id seg < MB ->
  Update MB SVS DEBUG T ids count offset seg = (AssertionFailure, seg)
  /\ (forall seg0,
        block_id (snd (Update MB SVS DEBUG T ids count offset seg0))
        = block_id seg0)
  /\ (fst (ToTemporary MB new_id (seg, mgr)) = Return tt ->
      MB <= block_id (fst (snd (ToTemporary MB new_id (seg, mgr))))
      /\ blocks (snd (snd (ToTemporary MB new_id (seg, mgr))))
           !! block_id (fst (snd (ToTemporary MB new_id (seg, mgr))))
         = blocks mgr !! block_id seg).
Proof.
  intros Hdisk. split; [| split].
  - unfold Update, mbind, M_bind, bind, get, assert.
    destruct (Z.leb_spec MB (block_id seg)); [lia | reflexivity].
  - intros seg0. apply Update_keeps_block_id.
  - rewrite (ToTemporary_disk MB new_id seg mgr Hdisk).
    destruct (blocks mgr !! block_id seg) as [buffer |]; [| discriminate].
    destruct (MB <=? new_id) eqn:Hnew; [| discriminate]. simpl.
    intros _. split; [lia |]. by rewrite lookup_insert_eq.
Qed.

Lemma Update_requires_temporary_block_witness :
  Update MB0 SVS0 true txn1 [5] 1 0 seg_disk = (AssertionFailure, seg_disk)
  /\ MB0 <= block_id (fst (snd (ToTemporary MB0 (MB0 + 1)
                                  (seg_disk, mkManager (<[7 := [1; 2; 3]]> ∅))))).
Proof.
  pose proof (Update_requires_temporary_block MB0 SVS0 true txn1 [5] 1%nat 0
                seg_disk (MB0 + 1) (mkManager (<[7 := [1; 2; 3]]> ∅))
                ltac:(reflexivity)) as (Hfail & _ & Hpromote).
  split; [exact Hfail |]. apply Hpromote. reflexivity.
Defined.

(** C8 fails on the code: the chain of vector 1 is outstanding, yet the
    index scan of vector 0 is not rejected and fetches the base data. *)
Lemma IndexScan_other_vector_chain_not_rejected :
  versions seg_v1 = Some [None; Some info_txn1]
  /\ IndexScan seg_v1 0 (mkScanState [])
     = (Return (FetchBaseData 0), mkScanState [SharedLock]).
Proof. split; reflexivity. Qed.

(** C8, as the code has it.  [IndexScan] of vector [vector_index] throws
    the outstanding-updates exception when the versions array has a
    chain in the slot of that vector, whatever the other slots hold;
    without versions array, or with an empty slot for that vector, the
    base data of the vector is fetched.  For [vector_index = 0] a shared
    lock is first added to [state.locks], also when the call then
    throws, and no call takes a lock out of [state.locks]. *)
Theorem IndexScan_checks_scanned_vector seg vector_index state :
  let state' :=
    mkScanState (if (vector_index =? 0)%nat then locks state ++ [SharedLock]
                 else locks state) in
  (versions seg = None ->
     IndexScan seg vector_index state = (Return (FetchBaseData vector_index), state'))
  /\ (forall vs, versions seg = Some vs -> vs !! vector_index = Some None ->
     IndexScan seg vector_index state = (Return (FetchBaseData vector_index), state'))
  /\ (forall vs info, versions seg = Some vs -> vs !! vector_index = Some (Some info) ->
     IndexScan seg vector_index state = (Throw outstanding_updates, state'))
  /\ locks state `prefix_of` locks (snd (IndexScan seg vector_index state)).
Proof.
  intros state'. destruct state as [lk].
  unfold IndexScan, mbind, M_bind, bind, modify, read, throw, mret, M_ret, ret;
    subst state'; simpl.
  repeat split.
  - intros ->. by destruct (vector_index =? 0)%nat.
  - intros vs -> Hslot. destruct (vector_index =? 0)%nat; simpl; by rewrite Hslot.
  - intros vs info -> Hslot. destruct (vector_index =? 0)%nat; simpl; by rewrite Hslot.
  - destruct (vector_index =? 0)%nat; simpl;
      (destruct (versions seg) as [vs |]; simpl;
       [destruct (vs !! vector_index) as [[info |] |]; simpl |]);
      first [done | by apply prefix_app_r].
Qed.

Lemma IndexScan_checks_scanned_vector_witness :
  IndexScan seg_disk 0 (mkScanState [])
    = (Return (FetchBaseData 0), mkScanState [SharedLock])
  /\ IndexScan seg_v0 1 (mkScanState [SharedLock])
    = (Return (FetchBaseData 1), mkScanState [SharedLock])
  /\ IndexScan seg_v0 0 (mkScanState [])
    = (Throw outstanding_updates, mkScanState [SharedLock]).
Proof.
  split; [| split].
  - apply (proj1 (IndexScan_checks_scanned_vector seg_disk 0 (mkScanState []))).
    reflexivity.
  - apply (proj1 (proj2 (IndexScan_checks_scanned_vector seg_v0 1
                           (mkScanState [SharedLock])))
             [Some info_head; None]); reflexivity.
  - apply (proj1 (proj2 (proj2 (IndexScan_checks_scanned_vector seg_v0 0
                                  (mkScanState []))))
             [Some info_head; None] info_head); reflexivity.
Defined.

End SegmentFacts.

(** ** Composition and invariants of the catalog set *)

Module CatalogLaws.
Import Catalog CatalogFacts.

Lemma extends_committed_from TIS h h' a :
  extends h h' -> committed_from TIS h a -> committed_from TIS h' a.
Proof.
  intros Hext. induction 1 as [a e Ha Hts Hc | a e c Ha Hts Hc _ IH];
    destruct (Hext _ _ Ha) as (e' & Ha' & _ & Hts' & _ & Hch).
  - eapply committed_last; [exact Ha' | congruence | congruence].
  - apply (committed_link TIS h' a e' c Ha'); [congruence | congruence | exact IH].
Qed.

(** The shape of a successful [CreateEntry]: the new head [v] sits on
    the node [a], which was the head before or is the new dummy node. *)
Lemma CreateEntry_true_shape TIS S T nm value S1 T1 :
  CreateEntry TIS nm value (S, T) = (Return true, (S1, T1)) ->
  exists v a ea hp,
    S1 = mkSet (this S) (<[nm := Some v]> (data S))
           (<[v := new_version S T value a]> (<[a := with_parent (Some v) ea]> hp))
    /\ T1 = PushCatalogEntry a T
    /\ hp !! v = None /\ hp !! a = Some ea /\ v <> a
    /\ (0 < TIS -> timestamp ea < TIS) /\ deleted ea = true
    /\ extends (heap S) hp
    /\ ((data S !! nm = None /\ hp = <[a := ea]> (heap S) /\ heap S !! a = None
         /\ ea = mkEntry nm 0 true None None (Some (this S)))
        \/ (data S !! nm = Some (Some a) /\ hp = heap S /\ timestamp ea < TIS)).
Proof.
  intros Hrun.
  destruct (CreateEntry_cases TIS S T nm value)
    as [Hd | [[Hd Hu] | [(a & Hd & Hh & Hu) | (a & cur & Hd & Hh & Hc)]]].
  - rewrite (CreateEntry_new TIS S T nm value Hd) in Hrun.
    injection Hrun as <- <-.
    set (d := fresh (dom (heap S))) in *.
    set (dummy := mkEntry nm 0 true None None (Some (this S))) in *.
    set (v := fresh (dom (<[d := dummy]> (heap S)))) in *.
    assert (Hdn : heap S !! d = None) by apply fresh_lookup.
    exists v, d, dummy, (<[d := dummy]> (heap S)).
    rewrite insert_insert_eq.
    repeat split; try done.
    + apply fresh_lookup.
    + apply lookup_insert_eq.
    + apply (fresh_ne _ d dummy), lookup_insert_eq.
    + by apply extends_insert_fresh.
    + left. done.
  - rewrite Hu in Hrun. discriminate.
  - rewrite Hu in Hrun. discriminate.
  - destruct Hc as [Hc | [[Hc Hdel] | [Hc Hdel]]].
    + rewrite (CreateEntry_conflict TIS S T nm value a cur Hd Hh Hc) in Hrun.
      discriminate.
    + rewrite (CreateEntry_live TIS S T nm value a cur Hd Hh Hc Hdel) in Hrun.
      discriminate.
    + rewrite (CreateEntry_replace TIS S T nm value a cur Hd Hh Hc Hdel) in Hrun.
      injection Hrun as <- <-.
      exists (fresh (dom (heap S))), a, cur, (heap S).
      repeat split; try done.
      * apply fresh_lookup.
      * by apply (fresh_ne _ a cur).
      * intros b eb Hb. exists eb. done.
      * right. done.
Qed.

(** Either [CreateEntry] succeeds or it leaves everything as it was. *)
Lemma CreateEntry_true_or_unchanged TIS S T nm value :
  fst (CreateEntry TIS nm value (S, T)) = Return true
  \/ snd (CreateEntry TIS nm value (S, T)) = (S, T).
Proof.
  destruct (CreateEntry_cases TIS S T nm value)
    as [Hd | [[Hd Hu] | [(a & Hd & Hh & Hu) | (a & cur & Hd & Hh & Hc)]]].
  - left. by rewrite (CreateEntry_new TIS S T nm value Hd).
  - right. by rewrite Hu.
  - right. by rewrite Hu.
  - destruct Hc as [Hc | [[Hc Hdel] | [Hc Hdel]]].
    + right. by rewrite (CreateEntry_conflict TIS S T nm value a cur Hd Hh Hc).
    + right. by rewrite (CreateEntry_live TIS S T nm value a cur Hd Hh Hc Hdel).
    + left. by rewrite (CreateEntry_replace TIS S T nm value a cur Hd Hh Hc Hdel).
Qed.

Lemma spliced_extends (h hp : gmap nat AbstractCatalogEntry) v nv a ea :
  extends h hp -> hp !! v = None -> hp !! a = Some ea ->
  extends h (<[v := nv]> (<[a := with_parent (Some v) ea]> hp)).
Proof.
  intros Hext Hv Ha. eapply extends_trans; [exact Hext |].
  eapply extends_trans.
  - apply (extends_insert_same hp a ea (with_parent (Some v) ea)); done.
  - apply extends_insert_fresh. rewrite lookup_insert_ne; [done | congruence].
Qed.

(** More fuel does not change what a walk returned. *)
Lemma GetEntry_loop_more_fuel h T : forall fuel a cur,
  GetEntry_loop fuel h T a = Return cur ->
  GetEntry_loop (S fuel) h T a = Return cur.
Proof.
  induction fuel as [| fuel IH]; intros a cur.
  - simpl. destruct (h !! a) as [e |]; [| done].
    destruct (child e); [| done]. repeat case_match; done.
  - intros Hrun. cbn [GetEntry_loop] in *.
    destruct (h !! a) as [e |]; [| done].
    destruct (child e) as [c |]; [| done].
    destruct (timestamp e =? transaction_id T); [done |].
    destruct (timestamp e <? start_time T); [done |].
    by apply IH.
Qed.

Lemma GetEntry_more_fuel S T nm fuel r :
  GetEntry fuel S T nm = Return r -> GetEntry (Datatypes.S fuel) S T nm = Return r.
Proof.
  unfold GetEntry. destruct (data S !! nm) as [[a |] |]; try done.
  destruct (GetEntry_loop fuel (heap S) T a) as [cur | | | |] eqn:Hl; try done.
  by rewrite (GetEntry_loop_more_fuel _ _ _ _ _ Hl).
Qed.

(** X1. Read your own writes: after a successful [CreateEntry] the
    creating transaction gets the new version from [GetEntry] (null if
    the entry was passed in as deleted), and [EntryExists] agrees,
    whatever the fuel. *)
Theorem CreateEntry_visible_to_creator TIS S T nm value S1 T1 fuel :
  CreateEntry TIS nm value (S, T) = (Return true, (S1, T1)) ->
  exists v,
    data S1 !! nm = Some (Some v)
    /\ GetEntry fuel S1 T1 nm = Return (if deleted value then None else Some v)
    /\ EntryExists fuel S1 T1 nm = Return (negb (deleted value)).
Proof.
  intros Hrun.
  destruct (CreateEntry_true_shape _ _ _ _ _ _ _ Hrun)
    as (v & a & ea & hp & -> & -> & Hv & Ha & Hne & _).
  exists v. split; [apply lookup_insert_eq |].
  assert (Hget : GetEntry fuel
            (mkSet (this S) (<[nm := Some v]> (data S))
               (<[v := new_version S T value a]>
                  (<[a := with_parent (Some v) ea]> hp)))
            (PushCatalogEntry a T) nm
          = Return (if deleted value then None else Some v)).
  { unfold GetEntry; simpl. rewrite lookup_insert_eq.
    destruct fuel; simpl; rewrite lookup_insert_eq; simpl;
      rewrite Z.eqb_refl, lookup_insert_eq; simpl; by destruct (deleted value). }
  split; [exact Hget |].
  rewrite EntryExists_as_GetEntry, Hget. by destruct (deleted value).
Qed.

Lemma CreateEntry_visible_to_creator_witness :
  exists v,
    data set_created !! "tbl" = Some (Some v)
    /\ GetEntry 0 set_created txn1_created "tbl"
       = Return (if deleted tbl then None else Some v)
    /\ EntryExists 0 set_created txn1_created "tbl" = Return (negb (deleted tbl)).
Proof.
  apply (CreateEntry_visible_to_creator TIS0 (empty_set 0) txn1 "tbl" tbl
           set_created txn1_created 0). reflexivity.
Defined.

(** X2. [CreateEntry] on one name does not change what any transaction
    reads under another name of a well-formed set, however the call
    ends. *)
Theorem CreateEntry_other_names_unchanged TIS S T nm value T' n' fuel :
  wf S -> n' <> nm ->
  GetEntry fuel (fst (snd (CreateEntry TIS nm value (S, T)))) T' n'
  = GetEntry fuel S T' n'
  /\ EntryExists fuel (fst (snd (CreateEntry TIS nm value (S, T)))) T' n'
     = EntryExists fuel S T' n'.
Proof.
  intros Hwf Hne.
  destruct (CreateEntry_true_or_unchanged TIS S T nm value) as [Htrue | Hsame];
    [| by rewrite Hsame].
  destruct (CreateEntry TIS nm value (S, T)) as [r [S1 T1]] eqn:Hrun.
  simpl in *. subst r.
  destruct (CreateEntry_true_shape _ _ _ _ _ _ _ Hrun)
    as (v & a & ea & hp & -> & _ & Hv & Ha & _ & _ & _ & Hext & _).
  split; [apply GetEntry_extends | apply EntryExists_extends]; try done;
    simpl; try (by rewrite lookup_insert_ne); by apply spliced_extends.
Qed.

Lemma CreateEntry_other_names_unchanged_witness :
  GetEntry 1 (fst (snd (CreateEntry TIS0 "other" tbl (set_committed, txn2))))
    txn1 "tbl" = GetEntry 1 set_committed txn1 "tbl"
  /\ EntryExists 1 (fst (snd (CreateEntry TIS0 "other" tbl (set_committed, txn2))))
       txn1 "tbl" = EntryExists 1 set_committed txn1 "tbl".
Proof.
  apply (CreateEntry_other_names_unchanged TIS0 set_committed txn2 "other" tbl
           txn1 "tbl" 1).
  - intros nm p Hp. unfold set_committed in Hp; simpl in Hp.
    destruct (decide (nm = "tbl")) as [-> | Hn].
    + rewrite lookup_insert_eq in Hp. injection Hp as <-.
      eexists 1%nat, _, 1%nat. repeat split; try reflexivity.
      eapply chain_link; [reflexivity | reflexivity |].
      eapply chain_last; reflexivity.
    + rewrite lookup_insert_ne in Hp by done. rewrite lookup_empty in Hp.
      discriminate.
  - discriminate.
Defined.

Lemma one_writer_empty TIS id : one_writer TIS (empty_set id).
Proof. intros nm a e c H. simpl in H. rewrite lookup_empty in H. discriminate. Qed.

(** X3. [CreateEntry] keeps the shape of the version chains: on a set
    where every name has a non-null head carrying that name over a chain
    that ends, and where only heads may be uncommitted, the same holds
    after the call, however it ends.  The entry has to be created under
    its own name, and [0 < TRANSACTION_ID_START], so that the timestamp
    0 of a dummy node counts as committed. *)
Theorem CreateEntry_keeps_chain_shape TIS S T nm value :
  0 < TIS -> name value = nm -> wf S -> one_writer TIS S ->
  wf (fst (snd (CreateEntry TIS nm value (S, T))))
  /\ one_writer TIS (fst (snd (CreateEntry TIS nm value (S, T)))).
Proof.
  intros HTIS Hnm Hwf Hone.
  destruct (CreateEntry TIS nm value (S, T)) as [r [S1 T1]] eqn:Hrun. simpl.
  split; [exact (CreateEntry_wf TIS S T nm value r S1 T1 Hwf Hnm Hrun) |].
  destruct (CreateEntry_true_or_unchanged TIS S T nm value) as [Htrue | Hsame];
    rewrite Hrun in *; simpl in *; [subst r | by injection Hsame as ->].
  destruct (CreateEntry_true_shape _ _ _ _ _ _ _ Hrun)
    as (v & a & ea & hp & -> & _ & Hv & Ha & Hne & Hts & _ & Hext & Hcase).
  pose proof (spliced_extends (heap S) hp v (new_version S T value a) a ea
                Hext Hv Ha) as Hext1.
  assert (Hbelow : committed_from TIS hp a).
  { destruct Hcase as [(Hd & -> & Hfresh & ->) | (Hd & -> & Hlt)].
    - eapply committed_last; [apply lookup_insert_eq | simpl; lia | done].
    - destruct (child ea) as [c |] eqn:Hc.
      + eapply committed_link; [exact Ha | exact Hlt | exact Hc |].
        exact (Hone nm a ea c Hd Ha Hc).
      + eapply committed_last; [exact Ha | exact Hlt | exact Hc]. }
  intros n b eb c Hb Heb Hc. simpl in *.
  destruct (decide (nm = n)) as [<- | Hn].
  - rewrite lookup_insert_eq in Hb. injection Hb as <-.
    rewrite lookup_insert_eq in Heb. injection Heb as <-.
    simpl in Hc. injection Hc as <-.
    eapply extends_committed_from; [| exact Hbelow].
    eapply extends_trans.
    + apply (extends_insert_same hp a ea (with_parent (Some v) ea)); done.
    + apply extends_insert_fresh. rewrite lookup_insert_ne; [done | congruence].
  - rewrite lookup_insert_ne in Hb by done.
    destruct (Hwf _ _ Hb) as (b' & eb0 & k & Hb' & Hh0 & _ & _).
    injection Hb' as <-.
    destruct (Hext1 _ _ Hh0) as (eb' & Heb' & _ & _ & _ & Hch).
    assert (eb' = eb) as -> by congruence.
    eapply extends_committed_from; [exact Hext1 |].
    apply (Hone n b eb0 c Hb Hh0). congruence.
Qed.

Lemma CreateEntry_keeps_chain_shape_witness :
  wf set_created /\ one_writer TIS0 set_created.
Proof.
  apply (CreateEntry_keeps_chain_shape TIS0 (empty_set 0) txn1 "tbl" tbl).
  - reflexivity.
  - reflexivity.
  - intros nm p H. simpl in H. rewrite lookup_empty in H. discriminate.
  - intros nm a e c H. simpl in H. rewrite lookup_empty in H. discriminate.
Defined.

(** X4. Write-write detection: once a transaction (with a transaction
    id at or above [TRANSACTION_ID_START]) has created [nm], every
    further [CreateEntry] on [nm], by any transaction, throws the
    write-write conflict and changes nothing. *)
Theorem CreateEntry_twice_conflicts TIS S T nm value S1 T1 T2 value2 :
  TIS <= transaction_id T ->
  CreateEntry TIS nm value (S, T) = (Return true, (S1, T1)) ->
  CreateEntry TIS nm value2 (S1, T2)
  = (Throw (TransactionException "Catalog write-write conflict!"), (S1, T2)).
Proof.
  intros Hid Hrun.
  destruct (CreateEntry_true_shape _ _ _ _ _ _ _ Hrun)
    as (v & a & ea & hp & -> & _).
  eapply CreateEntry_conflict; simpl; [apply lookup_insert_eq .. | done].
Qed.

Lemma CreateEntry_twice_conflicts_witness :
  CreateEntry TIS0 "tbl" tbl (set_created, txn2)
  = (Throw (TransactionException "Catalog write-write conflict!"),
     (set_created, txn2)).
Proof.
  apply (CreateEntry_twice_conflicts TIS0 (empty_set 0) txn1 "tbl" tbl
           set_created txn1_created txn2 tbl).
  - vm_compute. discriminate.
  - reflexivity.
Defined.

(** X5. Rollback frees the name: after a successful [CreateEntry] on a
    well-formed set and the [Undo] of the node it pushed, a
    [CreateEntry] on the same name by any transaction succeeds. *)
Theorem CreateEntry_after_Undo_succeeds TIS S T nm value S1 T1 T2 value2 :
  0 < TIS -> wf S -> parent value = None ->
  CreateEntry TIS nm value (S, T) = (Return true, (S1, T1)) ->
  exists pushed S2,
    undo_buffer T1 = undo_buffer T ++ [pushed]
    /\ Undo S1 pushed = (Return tt, S2)
    /\ fst (CreateEntry TIS nm value2 (S2, T2)) = Return true.
Proof.
  intros HTIS Hwf Hpar Hrun.
  destruct (CreateEntry_true_shape _ _ _ _ _ _ _ Hrun)
    as (v & a & ea & hp & -> & -> & Hv & Ha & Hne & Hts & Hdel & Hext & Hcase).
  assert (Hname : name ea = nm).
  { destruct Hcase as [(_ & _ & _ & ->) | (Hd & -> & _)]; [done |].
    destruct (Hwf _ _ Hd) as (b & eb & k & Hb & Hhb & Hnb & _).
    injection Hb as <-. congruence. }
  exists a. eexists. split; [reflexivity |]. split.
  { apply Undo_splice; done. }
  erewrite (CreateEntry_replace TIS _ T2 nm value2 a (with_parent (Some v) ea));
    simpl; [done | apply lookup_insert_eq .. | by apply Hts | done].
Qed.

Lemma CreateEntry_after_Undo_succeeds_witness :
  exists pushed S2,
    undo_buffer txn1_created = undo_buffer txn1 ++ [pushed]
    /\ Undo set_created pushed = (Return tt, S2)
    /\ fst (CreateEntry TIS0 "tbl" tbl (S2, txn2)) = Return true.
Proof.
  apply (CreateEntry_after_Undo_succeeds TIS0 (empty_set 0) txn1 "tbl" tbl
           set_created txn1_created txn2 tbl).
  - reflexivity.
  - intros nm p H. simpl in H. rewrite lookup_empty in H. discriminate.
  - reflexivity.
  - reflexivity.
Defined.

Lemma GetEntry_loop_stops h T : forall fuel a cur,
  GetEntry_loop fuel h T a = Return cur ->
  exists e, h !! cur = Some e
    /\ (child e = None \/ timestamp e = transaction_id T
        \/ timestamp e < start_time T).
Proof.
  induction fuel as [| fuel IH]; intros a cur; cbn [GetEntry_loop];
    destruct (h !! a) as [e |] eqn:Ha; try done;
    destruct (child e) as [c |] eqn:Hc;
    try (intros [= <-]; exists e; by auto);
    destruct (Z.eqb_spec (timestamp e) (transaction_id T));
    try (intros [= <-]; exists e; by auto);
    destruct (Z.ltb_spec (timestamp e) (start_time T));
    try (intros [= <-]; exists e; by auto); try done.
  apply IH.
Qed.

(** X6. What [GetEntry] returns is never a deleted entry, and it is a
    version the transaction may see: its own, one committed before its
    start time, or the last node of the chain. *)
Theorem GetEntry_result_visible fuel S T nm p :
  GetEntry fuel S T nm = Return (Some p) ->
  exists e, heap S !! p = Some e /\ deleted e = false
    /\ (child e = None \/ timestamp e = transaction_id T
        \/ timestamp e < start_time T).
Proof.
  unfold GetEntry. destruct (data S !! nm) as [[a |] |]; try done.
  destruct (GetEntry_loop fuel (heap S) T a) as [cur | | | |] eqn:Hl; try done.
  destruct (GetEntry_loop_stops _ _ _ _ _ Hl) as (e & He & Hvis).
  rewrite He. destruct (deleted e) eqn:Hdel; [done |].
  intros [= <-]. eauto.
Qed.

Lemma GetEntry_result_visible_witness :
  exists e, heap set_committed !! 1%nat = Some e /\ deleted e = false
    /\ (child e = None \/ timestamp e = transaction_id txn1
        \/ timestamp e < start_time txn1).
Proof.
  apply (GetEntry_result_visible 0 set_committed txn1 "tbl"). reflexivity.
Defined.

(** X7. Isolation from an uncommitted create: to another transaction
    [T2] (its id is not [T]'s, its start time is not above [T]'s id)
    every read returns after [T]'s successful [CreateEntry] what it
    returned before, given one more unit of fuel for the new version to
    be stepped over. *)
Theorem CreateEntry_invisible_to_others TIS S T nm value S1 T1 T2 n' fuel r :
  wf S ->
  transaction_id T2 <> transaction_id T -> start_time T2 <= transaction_id T ->
  CreateEntry TIS nm value (S, T) = (Return true, (S1, T1)) ->
  GetEntry fuel S T2 n' = Return r ->
  GetEntry (Datatypes.S fuel) S1 T2 n' = Return r
  /\ EntryExists (Datatypes.S fuel) S1 T2 n' = Return (not_null r).
Proof.
  intros Hwf Hother Hstart Hrun Hbefore.
  assert (Hget : GetEntry (Datatypes.S fuel) S1 T2 n' = Return r);
    [| split; [exact Hget | by rewrite EntryExists_as_GetEntry, Hget]].
  destruct (CreateEntry_true_shape _ _ _ _ _ _ _ Hrun)
    as (v & a & ea & hp & -> & _ & Hv & Ha & Hne & _ & Hdel & Hext & Hcase).
  pose proof (spliced_extends (heap S) hp v (new_version S T value a) a ea
                Hext Hv Ha) as Hext1.
  destruct (decide (nm = n')) as [<- | Hn].
  - unfold GetEntry; simpl. rewrite lookup_insert_eq.
    rewrite lookup_insert_eq. simpl.
    destruct (Z.eqb_spec (transaction_id T) (transaction_id T2)); [congruence |].
    destruct (Z.ltb_spec (transaction_id T) (start_time T2)); [lia |].
    destruct Hcase as [(Hd & -> & Hfresh & ->) | (Hd & -> & _)].
    + unfold GetEntry in Hbefore. rewrite Hd in Hbefore. injection Hbefore as <-.
      assert (Hda : (<[v := new_version S T value a]>
                       (<[a := with_parent (Some v)
                                 (mkEntry nm 0 true None None (Some (this S)))]>
                          (<[a := mkEntry nm 0 true None None (Some (this S))]>
                             (heap S)))) !! a
                    = Some (with_parent (Some v)
                              (mkEntry nm 0 true None None (Some (this S))))).
      { rewrite lookup_insert_ne by done. apply lookup_insert_eq. }
      destruct fuel; simpl; rewrite Hda; simpl; rewrite Hda; reflexivity.
    + unfold GetEntry in Hbefore. rewrite Hd in Hbefore.
      destruct (Hwf _ _ Hd) as (b & eb & k & Hb & Hhb & _ & Hch).
      injection Hb as <-.
      rewrite (GetEntry_loop_extends _ _ T2 a k Hext1 Hch).
      destruct (GetEntry_loop fuel (heap S) T2 a) as [cur | | | |] eqn:Hl; try done.
      destruct (GetEntry_loop_in _ _ _ _ _ Hl) as [ec Hc].
      destruct (Hext1 _ _ Hc) as (ec' & Hc' & _ & _ & Hdel' & _).
      rewrite Hc in Hbefore. rewrite Hc', <- Hdel'. exact Hbefore.
  - apply GetEntry_more_fuel.
    rewrite (GetEntry_extends S _ T2 n' fuel Hwf); [done | | done].
    simpl. by rewrite lookup_insert_ne.
Qed.

Lemma CreateEntry_invisible_to_others_witness :
  GetEntry 1 set_created txn2 "tbl" = Return None
  /\ EntryExists 1 set_created txn2 "tbl" = Return (not_null None).
Proof.
  apply (CreateEntry_invisible_to_others TIS0 (empty_set 0) txn1 "tbl" tbl
           set_created txn1_created txn2 "tbl" 0 None).
  - intros nm p H. simpl in H. rewrite lookup_empty in H. discriminate.
  - vm_compute. discriminate.
  - vm_compute. discriminate.
  - reflexivity.
  - reflexivity.
Defined.

(** X8. [Undo] does not reset the parent pointer of the node it puts
    back, so it must not run twice on the same node: after a successful
    [CreateEntry] and the [Undo] of the pushed node, a second [Undo] of
    that node follows the pointer to the destroyed version, which is
    undefined behaviour. *)
Theorem Undo_twice_is_undefined TIS S T nm value S1 T1 :
  wf S -> parent value = None ->
  CreateEntry TIS nm value (S, T) = (Return true, (S1, T1)) ->
  exists pushed S2,
    undo_buffer T1 = undo_buffer T ++ [pushed]
    /\ Undo S1 pushed = (Return tt, S2)
    /\ Undo S2 pushed = (Undefined, S2).
Proof.
  intros Hwf Hpar Hrun.
  destruct (CreateEntry_true_shape _ _ _ _ _ _ _ Hrun)
    as (v & a & ea & hp & -> & -> & Hv & Ha & Hne & _ & _ & _ & Hcase).
  assert (Hname : name ea = nm).
  { destruct Hcase as [(_ & _ & _ & ->) | (Hd & -> & _)]; [done |].
    destruct (Hwf _ _ Hd) as (b & eb & k & Hb & Hhb & Hnb & _).
    injection Hb as <-. congruence. }
  exists a. eexists. split; [reflexivity |]. split.
  { apply Undo_splice; done. }
  unfold Undo; simpl. rewrite lookup_insert_eq. simpl.
  rewrite lookup_insert_ne by done. by rewrite Hv.
Qed.

Lemma Undo_twice_is_undefined_witness :
  exists pushed S2,
    undo_buffer txn1_created = undo_buffer txn1 ++ [pushed]
    /\ Undo set_created pushed = (Return tt, S2)
    /\ Undo S2 pushed = (Undefined, S2).
Proof.
  apply (Undo_twice_is_undefined TIS0 (empty_set 0) txn1 "tbl" tbl
           set_created txn1_created).
  - intros nm p H. simpl in H. rewrite lookup_empty in H. discriminate.
  - reflexivity.
  - reflexivity.
Defined.

End CatalogLaws.

(** ** Update nodes, conflict check and scans *)

Module SegmentLaws.
Import Catalog Segment SegmentFacts UpdateNodes.

Lemma StronglySorted_lookup_step (l : list Z) :
  StronglySorted Z.lt l -> forall i x0 x,
  l !! 0%nat = Some x0 -> l !! i = Some x -> x0 + Z.of_nat i <= x.
Proof.
  intros Hs. induction i as [| i IH]; intros x0 x H0 Hi.
  - assert (x = x0) by congruence. lia.
  - destruct (lookup_lt_is_Some_2 l i) as [y Hy];
      [apply lookup_lt_Some in Hi; lia |].
    pose proof (IH x0 y H0 Hy).
    pose proof (StronglySorted_lookup_lt l Hs i (S i) y x ltac:(lia) Hy Hi). lia.
Qed.

Lemma set_tuples_in_range SVS SEL ids voff :
  0 < SVS -> SVS <= SEL -> 0 <= voff -> voff + SVS < 2 ^ 63 ->
  Forall (fun x => voff <= x < voff + SVS) ids ->
  (length ids <= Z.to_nat SVS)%nat ->
  forall n i acc, (i + n = length ids)%nat -> length acc = i ->
    set_tuples SVS SEL n ids voff i acc
    = (Return tt, acc ++ map (fun x => x - voff) (drop i ids)).
Proof.
  intros HS HSEL Hvoff Hmax Hrange Hlen.
  induction n as [| n IH]; intros i acc Hin Hacc.
  - simpl. rewrite drop_ge by lia. by rewrite app_nil_r.
  - cbn [set_tuples].
    destruct (lookup_lt_is_Some_2 ids i) as [x Hx]; [lia |].
    rewrite Hx. rewrite Forall_forall in Hrange.
    assert (Hxr : voff <= x < voff + SVS)
      by (apply Hrange, list_elem_of_lookup; eauto).
    unfold to_idx, to_sel.
    rewrite (Z.mod_small x), (Z.mod_small (voff + SVS)),
      (Z.mod_small (x - voff)), (Z.mod_small (x - voff)) by lia.
    destruct (Z.leb_spec voff x); [| lia].
    destruct (Z.ltb_spec x (voff + SVS)); [| lia]. simpl.
    unfold write_tuple.
    destruct (Nat.leb_spec (Z.to_nat SVS) i); [lia |].
    destruct (Nat.ltb_spec i (length acc)); [lia |].
    destruct (Nat.eqb_spec i (length acc)); [| lia].
    rewrite IH; [| lia | rewrite length_app; simpl; lia].
    rewrite (drop_S ids x i Hx). simpl. by rewrite <- app_assoc.
Qed.

Lemma ascending_in_vector_count SVS (ids : list Z) voff :
  0 < SVS -> StronglySorted Z.lt ids ->
  Forall (fun x => voff <= x < voff + SVS) ids ->
  (length ids <= Z.to_nat SVS)%nat.
Proof.
  intros HS Hs Hrange. destruct ids as [| x0 ids']; [simpl; lia |].
  set (ids := x0 :: ids') in *.
  destruct (lookup_lt_is_Some_2 ids (length ids - 1)) as [x Hx];
    [simpl; lia |].
  pose proof (StronglySorted_lookup_step ids Hs (length ids - 1) x0 x eq_refl Hx).
  rewrite Forall_forall in Hrange.
  assert (voff <= x0 < voff + SVS) by (apply Hrange; left).
  assert (voff <= x < voff + SVS)
    by (apply Hrange, list_elem_of_lookup; eauto).
  lia.
Qed.

Lemma StronglySorted_shift (l : list Z) d :
  StronglySorted Z.lt l -> StronglySorted Z.lt (map (fun x => x - d) l).
Proof.
  induction 1 as [| a l Hs IH Hall]; simpl; constructor; [done |].
  rewrite Forall_map. eapply Forall_impl; [exact Hall |].
  intros y Hy. simpl. lia.
Qed.

(** [CreateUpdateInfo] on ascending ids of one vector, in closed
    form. *)
Lemma CreateUpdateInfo_runs SVS SEL version ids count vi voff seg vs old :
  0 < SVS -> SVS < SEL -> 0 <= voff -> voff + SVS < 2 ^ 63 ->
  versions seg = Some vs -> vs !! vi = Some old ->
  count = length ids -> StronglySorted Z.lt ids ->
  Forall (fun x => voff <= x < voff + SVS) ids ->
  CreateUpdateInfo SVS SEL version ids count vi voff seg
  = (Return (mkUpdateInfo version count (map (fun x => x - voff) ids) old),
     with_versions
       (Some (<[vi := Some (mkUpdateInfo version count
                              (map (fun x => x - voff) ids) old)]> vs)) seg).
Proof.
  intros HS HSEL Hvoff Hmax Hvs Hold Hcount Hsorted Hrange.
  pose proof (ascending_in_vector_count SVS ids voff HS Hsorted Hrange) as Hlen.
  unfold CreateUpdateInfo, mbind, M_bind, bind, get, read, modify, lift,
    mret, M_ret, ret.
  rewrite Hvs, Hold.
  rewrite (set_tuples_in_range SVS SEL ids voff) by (done || lia).
  simpl. rewrite drop_0. unfold to_sel. rewrite Z.mod_small by lia.
  rewrite Nat2Z.id. reflexivity.
Qed.

(** X9. [CreateUpdateInfo] for strictly ascending ids of one vector
    returns a node that it has put in front of the chain of that vector:
    the node keeps the version number it was allocated with, holds the
    ids relative to the vector offset, strictly ascending and below
    [STANDARD_VECTOR_SIZE], and points to the former chain; the other
    vectors keep their chains, and the write loop stays inside the
    [STANDARD_VECTOR_SIZE] entries of the tuples array. *)
Theorem CreateUpdateInfo_prepends_node
    SVS SEL version ids count vi voff seg vs old :
  0 < SVS -> SVS < SEL -> 0 <= voff -> voff + SVS < 2 ^ 63 ->
  versions seg = Some vs -> vs !! vi = Some old ->
  count = length ids -> (1 <= count)%nat -> StronglySorted Z.lt ids ->
  Forall (fun x => voff <= x < voff + SVS) ids ->
  exists node seg',
    CreateUpdateInfo SVS SEL version ids count vi voff seg = (Return node, seg')
    /\ version_number node = version /\ next node = old
    /\ tuples node = map (fun x => x - voff) ids
    /\ node_ok node
    /\ Forall (fun t => 0 <= t < SVS) (tuples node)
    /\ (exists vs', versions seg' = Some vs' /\ vs' !! vi = Some (Some node)
          /\ length vs' = length vs
          /\ forall j, j <> vi -> vs' !! j = vs !! j)
    /\ block_id seg' = block_id seg
    /\ max_vector_count seg' = max_vector_count seg.
Proof.
  intros HS HSEL Hvoff Hmax Hvs Hold Hcount Hc1 Hsorted Hrange.
  eexists _, _. split.
  { apply (CreateUpdateInfo_runs SVS SEL version ids count vi voff seg vs old);
      done. }
  simpl. split_and!; try done.
  - unfold node_ok; simpl. split_and!; [by rewrite length_map | lia |].
    by apply StronglySorted_shift.
  - rewrite Forall_map. eapply Forall_impl; [exact Hrange |].
    intros x Hx. unfold compose. simpl in *. lia.
  - eexists. split_and!; [reflexivity | | |].
    + apply list_lookup_insert_eq. by eapply lookup_lt_Some.
    + apply length_insert.
    + intros j Hj. by apply list_lookup_insert_ne.
Qed.

Lemma CreateUpdateInfo_prepends_node_witness :
  exists node seg',
    CreateUpdateInfo SVS0 65536 4294967298 [1027; 1030] 2 1 1024 seg_v1
      = (Return node, seg')
    /\ version_number node = 4294967298 /\ next node = Some info_txn1
    /\ tuples node = map (fun x => x - 1024) [1027; 1030]
    /\ node_ok node
    /\ Forall (fun t => 0 <= t < SVS0) (tuples node)
    /\ (exists vs', versions seg' = Some vs' /\ vs' !! 1%nat = Some (Some node)
          /\ length vs' = length [None; Some info_txn1]
          /\ forall j, j <> 1%nat -> vs' !! j = [None; Some info_txn1] !! j)
    /\ block_id seg' = block_id seg_v1
    /\ max_vector_count seg' = max_vector_count seg_v1.
Proof.
  apply (CreateUpdateInfo_prepends_node SVS0 65536 4294967298 [1027; 1030] 2 1
           1024 seg_v1 [None; Some info_txn1] (Some info_txn1)).
  - reflexivity.
  - reflexivity.
  - vm_compute. discriminate.
  - reflexivity.
  - reflexivity.
  - reflexivity.
  - reflexivity.
  - lia.
  - repeat constructor.
  - repeat constructor; vm_compute; discriminate.
Defined.

(** *** Exactness of the conflict check *)






(** *** The node handed back *)

Lemma CheckForConflicts_node T ids count offset r :
  forall info node,
    CheckForConflicts info T ids count offset node = Return r ->
    (r = node /\ Forall (foreign T) (chain_nodes info))
    \/ (exists nd, r = Some nd /\ nd ∈ chain_nodes info
          /\ version_number nd = transaction_id T).
Proof.
  induction info as [v n t | v n t nx IH] using UpdateInfo_chain_ind;
    intros node; rewrite CheckForConflicts_unfold;
    cbn [version_number tuples N next chain_nodes];
    destruct (Z.eqb_spec v (transaction_id T)) as [Hown | Hother].
  - intros [= <-]. right. eexists. split_and!; [done | by left | done].
  - destruct (start_time T <? v).
    + destruct (conflict_loop _ _ _ _ _ _ _); simpl; try done.
      intros [= <-]. left. split; [done |]. by repeat constructor.
    + intros [= <-]. left. split; [done |]. by repeat constructor.
  - intros Hrun. destruct (IH _ Hrun) as [[-> Hall] | (nd & -> & Hin & Hv)].
    + right. eexists. split_and!; [done | by left | done].
    + right. exists nd. split_and!; [done | by right | done].
  - assert (Hstep : forall node',
              CheckForConflicts nx T ids count offset node' = Return r ->
              node' = node ->
              (r = node /\ Forall (foreign T)
                             (mkUpdateInfo v n t (Some nx) :: chain_nodes nx))
              \/ (exists nd, r = Some nd
                    /\ nd ∈ mkUpdateInfo v n t (Some nx) :: chain_nodes nx
                    /\ version_number nd = transaction_id T)).
    { intros node' Hrun ->.
      destruct (IH _ Hrun) as [[-> Hall] | (nd & -> & Hin & Hv)].
      - left. split; [done |]. by constructor.
      - right. exists nd. split_and!; [done | by right | done]. }
    destruct (start_time T <? v).
    + destruct (conflict_loop _ _ _ _ _ _ _); simpl; try done.
      intros Hrun. by apply (Hstep node).
    + intros Hrun. by apply (Hstep node).
Qed.

(** X11. The node that [CheckForConflicts] hands back to [Update]
    (starting from null) is a node of the chain written by the
    transaction itself, and it is null exactly when the chain has no
    such node: [Update] extends an own node if and only if there is
    one. *)
Theorem CheckForConflicts_finds_own_node T ids count offset info r :
  CheckForConflicts info T ids count offset None = Return r ->
  (r = None <-> Forall (foreign T) (chain_nodes info))
  /\ (forall nd, r = Some nd ->
        nd ∈ chain_nodes info /\ version_number nd = transaction_id T).
Proof.
  intros Hrun.
  destruct (CheckForConflicts_node _ _ _ _ _ _ _ Hrun)
    as [[-> Hall] | (nd & -> & Hin & Hv)].
  - split; [done | discriminate].
  - split.
    + split; [discriminate |]. intros Hall.
      rewrite Forall_forall in Hall. by destruct (Hall nd Hin).
    + intros nd' [= <-]. done.
Qed.

Lemma CheckForConflicts_finds_own_node_witness :
  (Some info_txn1 = None <-> Forall (foreign txn1) (chain_nodes info_head))
  /\ (forall nd, Some info_txn1 = Some nd ->
        nd ∈ chain_nodes info_head /\ version_number nd = transaction_id txn1).
Proof.
  apply (CheckForConflicts_finds_own_node txn1 [4; 9] 2 0 info_head
           (Some info_txn1)). reflexivity.
Defined.

(** *** Update after update *)

Lemma vector_start_bounds SVS first_id offset :
  0 < SVS -> offset <= first_id ->
  vector_start SVS first_id offset <= first_id
  /\ first_id < vector_start SVS first_id offset + SVS
  /\ offset <= vector_start SVS first_id offset.
Proof.
  intros HS Hle. unfold vector_start.
  pose proof (Z.mul_div_le (first_id - offset) SVS HS).
  pose proof (Z.mul_succ_div_gt (first_id - offset) SVS HS).
  assert (0 <= (first_id - offset) `div` SVS) by (apply Z.div_pos; lia).
  nia.
Qed.

(** X12. Two transactions on one row: after [CreateUpdateInfo] has put
    the node of a writer in front of the chain of a vector, [Update] by
    a transaction that is concurrent with that writer (the node's
    version number is not its id and is above its start time) throws
    the update conflict as soon as its ids share a row with that node,
    and leaves the segment as it is. *)
Theorem Update_after_concurrent_update
    MB SVS SEL DEBUG T2 ids2 count2 offset first_id seg vs old
    version ids count x :
  MB <= block_id seg -> 0 < SVS -> SVS < SEL ->
  count2 = length ids2 -> ids2 !! 0%nat = Some first_id ->
  StronglySorted Z.lt ids2 ->
  0 <= offset -> offset <= first_id -> first_id + SVS < 2 ^ 63 ->
  (first_id - offset) `div` SVS < Z.of_nat (max_vector_count seg) ->
  versions seg = Some vs ->
  vs !! Z.to_nat ((first_id - offset) `div` SVS) = Some old ->
  match old with
  | Some info => Forall node_ok (chain_nodes info)
  | None => True
  end ->
  count = length ids -> StronglySorted Z.lt ids ->
  Forall (fun y => vector_start SVS first_id offset <= y
                   < vector_start SVS first_id offset + SVS) ids ->
  version <> transaction_id T2 -> start_time T2 < version ->
  x ∈ ids -> x ∈ ids2 ->
  exists node seg1,
    CreateUpdateInfo SVS SEL version ids count
      (Z.to_nat ((first_id - offset) `div` SVS))
      (vector_start SVS first_id offset) seg = (Return node, seg1)
    /\ Update MB SVS DEBUG T2 ids2 count2 offset seg1 = (Throw conflict, seg1).
Proof.
  intros Hblock HS HSEL Hcount2 Hfirst Hsorted2 Hoff Hle Hhi Hidx Hvs Hold Hchain
    Hcount Hsorted Hrange Hother Hnewer Hx Hx2.
  destruct (vector_start_bounds SVS first_id offset HS Hle) as (Hv1 & Hv2 & Hv3).
  assert (Hc1 : (1 <= count)%nat).
  { subst count. apply list_elem_of_lookup in Hx as [i Hi].
    apply lookup_lt_Some in Hi. lia. }
  set (node := mkUpdateInfo version count
                 (map (fun y => y - vector_start SVS first_id offset) ids) old).
  exists node, (with_versions
                  (Some (<[Z.to_nat ((first_id - offset) `div` SVS)
                           := Some node]> vs)) seg).
  split.
  { apply (CreateUpdateInfo_runs SVS SEL version ids count _ _ seg vs old);
      try done; lia. }
  rewrite (Update_runs_check MB SVS DEBUG T2 ids2 count2 offset _
             (<[Z.to_nat ((first_id - offset) `div` SVS) := Some node]> vs)
             (Some node) first_id); try done; try lia.
  - fold (vector_start SVS first_id offset).
    rewrite (CheckForConflicts_throws T2 ids2 count2 _ Hcount2); try done.
    + apply lookup_lt_Some in Hfirst. lia.
    + cbn [chain_nodes node next]. apply Forall_cons. split.
      * unfold node_ok, node; simpl. split_and!; [by rewrite length_map | lia |].
        by apply StronglySorted_shift.
      * destruct old; [done | constructor].
    + cbn [chain_nodes]. apply Exists_cons_hd. split; [by split |].
      exists x, (x - vector_start SVS first_id offset). split_and!; [done | | done].
      simpl. apply list_elem_of_fmap. eauto.
  - apply list_lookup_insert_eq. by eapply lookup_lt_Some.
Qed.

Lemma Update_after_concurrent_update_witness :
  exists node seg1,
    CreateUpdateInfo SVS0 65536 4294967297 [1027; 1030] 2 1 1024 seg_v0
      = (Return node, seg1)
    /\ Update MB0 SVS0 true txn2 [1030; 1040] 2 0 seg1 = (Throw conflict, seg1).
Proof.
  apply (Update_after_concurrent_update MB0 SVS0 65536 true txn2 [1030; 1040] 2 0
           1030 seg_v0 [Some info_head; None] None 4294967297 [1027; 1030] 2
           1030).
  - reflexivity.
  - reflexivity.
  - reflexivity.
  - reflexivity.
  - reflexivity.
  - repeat constructor.
  - reflexivity.
  - vm_compute. discriminate.
  - reflexivity.
  - reflexivity.
  - reflexivity.
  - reflexivity.
  - exact I.
  - reflexivity.
  - repeat constructor.
  - repeat constructor; vm_compute; discriminate.
  - vm_compute. discriminate.
  - reflexivity.
  - apply list_elem_of_further, list_elem_of_here.
  - apply list_elem_of_here.
Defined.

(** *** What a returning [Update] has checked *)






(** *** Vectors without chain *)

Lemma Update_runs_lazy MB SVS DEBUG T ids count offset seg first_id :
  MB <= block_id seg -> 0 < SVS ->
  count = length ids -> ids !! 0%nat = Some first_id ->
  StronglySorted Z.lt ids ->
  - 2 ^ 63 <= offset -> offset <= first_id -> first_id < 2 ^ 63 ->
  (first_id - offset) `div` SVS < Z.of_nat (max_vector_count seg) ->
  versions seg = None ->
  Update MB SVS DEBUG T ids count offset seg
  = (Return (Update_vector (Z.to_nat ((first_id - offset) `div` SVS))
               (vector_offset_of SVS first_id offset) None),
     with_versions (Some (replicate (max_vector_count seg) None)) seg).
Proof.
  intros Hblock HS Hcount Hfirst Hsorted Hlo Hle Hhi Hidx Hvs.
  destruct (vector_offset_exact SVS first_id offset HS Hlo Hle Hhi) as [Hvi Hvo].
  assert (Hcnt : (1 <= length ids)%nat) by (apply lookup_lt_Some in Hfirst; lia).
  assert (0 <= (first_id - offset) `div` SVS) by (apply Z.div_pos; lia).
  unfold Update, mbind, M_bind, bind, get, assert, lift, read, modify, mret,
    M_ret, ret.
  destruct (Z.leb_spec MB (block_id seg)); [| lia].
  rewrite (ids_ascending_sorted ids Hsorted (count - 1) 1) by lia.
  destruct DEBUG; rewrite Hvs, Hfirst;
    (destruct (Z.leb_spec offset first_id); [| lia]);
    rewrite Hvi;
    (destruct (Z.ltb_spec ((first_id - offset) `div` SVS)
                (Z.of_nat (max_vector_count seg))); [| lia]);
    cbn [versions with_versions default]; unfold id;
    rewrite lookup_replicate_2 by lia; reflexivity.
Qed.

(** X14. An [Update] on a vector that has no chain cannot conflict:
    under the preconditions of [Update] it returns, handing the call on
    with a null node for the vector that holds the first id (the vector
    starts at or below that id and ends above it).  A segment without
    versions array gets one with [max_vector_count] empty slots; an
    existing array is left as it is. *)
Theorem Update_without_chain_returns
    MB SVS DEBUG T ids count offset seg first_id :
  MB <= block_id seg -> 0 < SVS ->
  count = length ids -> ids !! 0%nat = Some first_id ->
  StronglySorted Z.lt ids ->
  - 2 ^ 63 <= offset -> offset <= first_id -> first_id < 2 ^ 63 ->
  (first_id - offset) `div` SVS < Z.of_nat (max_vector_count seg) ->
  versions seg = None
  \/ (exists vs, versions seg = Some vs
        /\ vs !! Z.to_nat ((first_id - offset) `div` SVS) = Some None) ->
  Update MB SVS DEBUG T ids count offset seg
  = (Return (Update_vector (Z.to_nat ((first_id - offset) `div` SVS))
               (vector_offset_of SVS first_id offset) None),
     with_versions
       (Some (default (replicate (max_vector_count seg) None) (versions seg)))
       seg)
  /\ to_row (vector_offset_of SVS first_id offset)
     = vector_start SVS first_id offset
  /\ vector_start SVS first_id offset <= first_id
     < vector_start SVS first_id offset + SVS.
Proof.
  intros Hblock HS Hcount Hfirst Hsorted Hlo Hle Hhi Hidx Hcase.
  destruct (vector_offset_exact SVS first_id offset HS Hlo Hle Hhi) as [_ Hvo].
  destruct (vector_start_bounds SVS first_id offset HS Hle) as (Hv1 & Hv2 & _).
  split_and!; try done.
  destruct Hcase as [Hnone | (vs & Hvs & Hslot)].
  - rewrite (Update_runs_lazy MB SVS DEBUG T ids count offset seg first_id);
      try done. by rewrite Hnone.
  - rewrite (Update_runs_check MB SVS DEBUG T ids count offset seg vs None
               first_id); try done.
    rewrite Hvs. simpl. by destruct seg; simpl in *; subst.
Qed.

Lemma Update_without_chain_returns_witness :
  Update MB0 SVS0 false txn1 [1030; 1040] 2 0 (mkSegment MB0 2 None)
  = (Return (Update_vector 1 (vector_offset_of SVS0 1030 0) None),
     mkSegment MB0 2 (Some [None; None]))
  /\ to_row (vector_offset_of SVS0 1030 0) = vector_start SVS0 1030 0
  /\ vector_start SVS0 1030 0 <= 1030 < vector_start SVS0 1030 0 + SVS0.
Proof.
  apply (Update_without_chain_returns MB0 SVS0 false txn1 [1030; 1040] 2 0
           (mkSegment MB0 2 None) 1030).
  - reflexivity.
  - reflexivity.
  - reflexivity.
  - reflexivity.
  - repeat constructor.
  - vm_compute. discriminate.
  - vm_compute. discriminate.
  - reflexivity.
  - reflexivity.
  - left. reflexivity.
Defined.

(** *** Index scans and promotion *)

(** X15. The index scans of all vectors of a segment return if and only
    if no vector of the segment has a chain: a chain on vector [i] is
    what makes the scan of vector [i] throw. *)
Theorem IndexScan_all_vectors_return seg vs :
  versions seg = Some vs ->
  (forall i state, (i < length vs)%nat ->
     fst (IndexScan seg i state) = Return (FetchBaseData i))
  <-> Forall (fun slot => slot = None) vs.
Proof.
  intros Hvs.
  assert (Hscan : forall i state slot, vs !! i = Some slot ->
            fst (IndexScan seg i state)
            = match slot with
              | Some _ => Throw outstanding_updates
              | None => Return (FetchBaseData i)
              end).
  { intros i state slot Hslot.
    unfold IndexScan, mbind, M_bind, bind, modify, read, throw, mret, M_ret, ret.
    rewrite Hvs. destruct (i =? 0)%nat; rewrite Hslot; by destruct slot. }
  split.
  - intros Hall. apply Forall_lookup. intros i slot Hslot.
    specialize (Hall i (mkScanState []) (lookup_lt_Some _ _ _ Hslot)).
    rewrite (Hscan i _ slot Hslot) in Hall. by destruct slot.
  - intros Hnone i state Hi.
    destruct (lookup_lt_is_Some_2 vs i Hi) as [slot Hslot].
    rewrite (Hscan i state slot Hslot).
    rewrite Forall_lookup in Hnone. by rewrite (Hnone i slot Hslot).
Qed.

Lemma IndexScan_all_vectors_return_witness :
  (forall i state, (i < length [None; Some info_txn1])%nat ->
     fst (IndexScan seg_v1 i state) = Return (FetchBaseData i))
  <-> Forall (fun slot => slot = None) [None; Some info_txn1].
Proof.
  apply (IndexScan_all_vectors_return seg_v1 [None; Some info_txn1]).
  reflexivity.
Defined.

(** X16. [ToTemporary] is idempotent: once it has returned, a further
    call, whatever block the buffer manager would hand out, returns
    without touching the segment or the buffer manager. *)
Theorem ToTemporary_idempotent MB new_id new_id' seg mgr seg1 mgr1 :
  ToTemporary MB new_id (seg, mgr) = (Return tt, (seg1, mgr1)) ->
  ToTemporary MB new_id' (seg1, mgr1) = (Return tt, (seg1, mgr1)).
Proof.
  intros Hrun.
  assert (Htemp : MB <= block_id seg1).
  { destruct (Z.le_gt_cases MB (block_id seg)) as [Hge | Hlt].
    - unfold ToTemporary, mbind, M_bind, bind, get, mret, M_ret, ret in Hrun.
      cbv [fst snd] in Hrun.
      destruct (Z.leb_spec MB (block_id seg)); [| lia]. by injection Hrun as <- _.
    - rewrite (ToTemporary_disk MB new_id seg mgr) in Hrun by lia.
      destruct (blocks mgr !! block_id seg); [| done].
      destruct (Z.leb_spec MB new_id); [| done].
      by injection Hrun as <- _. }
  unfold ToTemporary, mbind, M_bind, bind, get, mret, M_ret, ret.
  cbv [fst snd]. by destruct (Z.leb_spec MB (block_id seg1)); [| lia].
Qed.

Lemma ToTemporary_idempotent_witness :
  ToTemporary MB0 (MB0 + 2)
    (mkSegment (MB0 + 1) 2 None,
     mkManager (<[MB0 + 1 := [1; 2; 3]]> (<[MB0 + 1 := []]> (<[7 := [1; 2; 3]]> ∅))))
  = (Return tt,
     (mkSegment (MB0 + 1) 2 None,
      mkManager (<[MB0 + 1 := [1; 2; 3]]> (<[MB0 + 1 := []]> (<[7 := [1; 2; 3]]> ∅))))).
Proof.
  apply (ToTemporary_idempotent MB0 (MB0 + 1) (MB0 + 2) seg_disk
           (mkManager (<[7 := [1; 2; 3]]> ∅))).
  reflexivity.
Defined.

End SegmentLaws.

(** ** Properties of the filters *)

Module FilterFacts.
Import Filter.

Section Loop.
Context {T : Type}.
Variables (OP : T -> T -> bool) (vec : list T) (predicate : T)
  (nullmask : list bool).

Lemma any_false_lookup (idx : nat) :
  any nullmask = false -> (idx < length nullmask)%nat ->
  nullmask !! idx = Some false.
Proof.
  unfold any. revert idx. induction nullmask as [| b l IH]; intros idx H Hlt.
  - simpl in Hlt. lia.
  - simpl in H. apply orb_false_iff in H as [-> Hl].
    destruct idx; [done |]. simpl in *. apply IH; [done | lia].
Qed.

(** Inside the arrays the test of a row is the null-aware one, also on
    the path that skips the null mask because no bit of it is set. *)
Lemma passes_keeps_row HAS_NULL idx :
  (idx < length vec)%nat -> (idx < length nullmask)%nat ->
  (HAS_NULL = false -> any nullmask = false) ->
  passes OP HAS_NULL vec predicate nullmask idx
  = Ok (keeps_row OP vec predicate nullmask idx).
Proof.
  intros Hv Hn Hfast. unfold passes, keeps_row.
  destruct (lookup_lt_is_Some_2 vec idx Hv) as [x ->].
  destruct (lookup_lt_is_Some_2 nullmask idx Hn) as [b Hb].
  destruct HAS_NULL.
  - rewrite Hb. by destruct b.
  - by rewrite (any_false_lookup idx (Hfast eq_refl) Hn).
Qed.

Lemma selection_loop_filter HAS_NULL sel :
  (HAS_NULL = false -> any nullmask = false) ->
  forall n i result_count result_sel,
    (i + n <= length (sel_vector sel))%nat ->
    in_bounds vec nullmask (take n (drop i (sel_vector sel))) ->
    length (sel_vector result_sel) = result_count ->
    (result_count + n <= capacity result_sel)%nat ->
    selection_loop OP HAS_NULL vec predicate sel nullmask n i result_count
      result_sel
    = Ok ((result_count
           + length (List.filter (keeps_row OP vec predicate nullmask)
                       (take n (drop i (sel_vector sel)))))%nat,
          mkSel (sel_vector result_sel
                 ++ List.filter (keeps_row OP vec predicate nullmask)
                      (take n (drop i (sel_vector sel))))
                (capacity result_sel)).
Proof.
  intros Hfast.
  induction n as [| n IH]; intros i rc rs Hlen Hin Hrc Hcap.
  - simpl. rewrite app_nil_r, Nat.add_0_r. by destruct rs.
  - cbn [selection_loop]. unfold get_index.
    destruct (lookup_lt_is_Some_2 (sel_vector sel) i) as [idx Hidx]; [lia |].
    rewrite Hidx. rewrite (drop_S _ idx i Hidx) in *. cbn [take] in *.
    unfold in_bounds in Hin. apply Forall_cons in Hin as [[Hv Hn] Hin].
    rewrite (passes_keeps_row HAS_NULL idx Hv Hn Hfast).
    cbn [List.filter].
    destruct (keeps_row OP vec predicate nullmask idx).
    + unfold set_index.
      destruct (Nat.leb_spec (capacity rs) rc); [lia |].
      destruct (Nat.ltb_spec rc (length (sel_vector rs))); [lia |].
      destruct (Nat.eqb_spec rc (length (sel_vector rs))); [| lia].
      rewrite IH; cbn [sel_vector capacity]; try done; try lia.
      * rewrite <- app_assoc. simpl. f_equal. f_equal. lia.
      * rewrite length_app. simpl. lia.
    + rewrite IH; try done; lia.
Qed.

Lemma selection_loop_never_raises HAS_NULL sel e :
  forall n i result_count result_sel,
    selection_loop OP HAS_NULL vec predicate sel nullmask n i result_count
      result_sel <> Raise e.
Proof.
  induction n as [| n IH]; intros i rc rs; cbn [selection_loop]; [done |].
  unfold get_index. destruct (sel_vector sel !! i) as [idx |]; [| done].
  unfold passes.
  destruct HAS_NULL; [destruct (nullmask !! idx) as [[] |]; simpl |];
    try done; try apply IH;
    (destruct (vec !! idx) as [x |]; [| done]);
    (destruct (OP x predicate); [| apply IH]);
    unfold set_index; repeat case_match; try done; apply IH.
Qed.

End Loop.

Lemma filter_filter_comm {A} (f g : A -> bool) (l : list A) :
  List.filter f (List.filter g l) = List.filter g (List.filter f l).
Proof.
  induction l as [| a l IH]; [done |]. simpl.
  destruct (g a) eqn:Hg, (f a) eqn:Hf; simpl; rewrite ?Hg, ?Hf, IH; done.
Qed.

Lemma filter_filter_and {A} (f g : A -> bool) (l : list A) :
  List.filter f (List.filter g l) = List.filter (fun a => g a && f a) l.
Proof.
  induction l as [| a l IH]; [done |]. simpl.
  destruct (g a) eqn:Hg; simpl; [destruct (f a) |]; by rewrite IH.
Qed.

Lemma filter_in_bounds {T} (vec : list T) nullmask (f : nat -> bool) rows :
  in_bounds vec nullmask rows -> in_bounds vec nullmask (List.filter f rows).
Proof.
  unfold in_bounds. rewrite !Forall_forall. intros Hall idx Hin.
  apply Hall. apply list_elem_of_In in Hin. apply List.filter_In in Hin as [Hin _].
  by apply list_elem_of_In.
Qed.

Section Filters.
Context {T : Type}.
Variables Equals LessThan GreaterThan LessThanEquals GreaterThanEquals
  : T -> T -> bool.

Lemma filterSelectionType_runs vec predicate sel approved comparison_type
    nullmask OP :
  operator_of Equals LessThan GreaterThan LessThanEquals GreaterThanEquals
    comparison_type = Some OP ->
  (approved <= length (sel_vector sel))%nat ->
  in_bounds vec nullmask (take approved (sel_vector sel)) ->
  filterSelectionType Equals LessThan GreaterThan LessThanEquals
      GreaterThanEquals
      vec predicate sel approved comparison_type nullmask
  = Ok (mkSel (List.filter (keeps_row OP vec predicate nullmask)
                 (take approved (sel_vector sel))) approved,
        length (List.filter (keeps_row OP vec predicate nullmask)
                  (take approved (sel_vector sel)))).
Proof.
  intros Hop Hlen Hin.
  assert (Hrun : forall HAS_NULL,
            (HAS_NULL = false -> any nullmask = false) ->
            filter_selection_loop OP HAS_NULL vec predicate sel approved nullmask
              (new_selection approved)
            = Ok (length (List.filter (keeps_row OP vec predicate nullmask)
                            (take approved (sel_vector sel))),
                  mkSel (List.filter (keeps_row OP vec predicate nullmask)
                           (take approved (sel_vector sel))) approved)).
  { intros HAS_NULL Hfast. unfold filter_selection_loop.
    rewrite (selection_loop_filter OP vec predicate nullmask HAS_NULL sel Hfast);
      try done; by rewrite ?drop_0. }
  unfold filterSelectionType.
  destruct comparison_type; simpl in Hop; try done; injection Hop as <-;
    (destruct (any nullmask) eqn:Hany; simpl;
     [rewrite (Hrun true) by done | rewrite (Hrun false) by done]); done.
Qed.

(** X17. [filterSelectionType] with one of the five comparison types it
    knows keeps exactly the selected rows that are not null and stand in
    the comparison with the constant, in their order, and counts them;
    the count never grows.  This holds on both paths (the null mask is
    skipped when no bit of it is set), no read or write leaves the
    arrays as long as the selected rows lie inside the vector and the
    null mask, and the result fits into the new selection vector. *)
Theorem filterSelectionType_keeps_matching_rows
    vec predicate sel approved comparison_type nullmask OP :
  operator_of Equals LessThan GreaterThan LessThanEquals GreaterThanEquals
    comparison_type = Some OP ->
  (approved <= length (sel_vector sel))%nat ->
  in_bounds vec nullmask (take approved (sel_vector sel)) ->
  exists sel' approved',
    filterSelectionType Equals LessThan GreaterThan LessThanEquals
      GreaterThanEquals
      vec predicate sel approved comparison_type nullmask
    = Ok (sel', approved')
    /\ sel_vector sel'
       = List.filter (keeps_row OP vec predicate nullmask)
           (take approved (sel_vector sel))
    /\ approved' = length (sel_vector sel')
    /\ (approved' <= approved)%nat
    /\ (approved' <= capacity sel')%nat.
Proof.
  intros Hop Hlen Hin. eexists _, _. split.
  { by apply filterSelectionType_runs. }
  simpl. split_and!; try done;
    (etrans; [apply List.filter_length_le |]); rewrite length_take; lia.
Qed.

(** X18. Two filters on the same vector can be applied in either
    order: both orders keep the same rows, those that pass both
    comparisons and are not null, in the same order, with the same
    count. *)
Theorem filterSelectionType_order_irrelevant
    vec sel approved nullmask type1 OP1 predicate1 type2 OP2 predicate2 :
  operator_of Equals LessThan GreaterThan LessThanEquals GreaterThanEquals
    type1 = Some OP1 ->
  operator_of Equals LessThan GreaterThan LessThanEquals GreaterThanEquals
    type2 = Some OP2 ->
  (approved <= length (sel_vector sel))%nat ->
  in_bounds vec nullmask (take approved (sel_vector sel)) ->
  exists sel1 n1 sel2 n2 sel12 sel21 n,
    filterSelectionType Equals LessThan GreaterThan LessThanEquals
      GreaterThanEquals
      vec predicate1 sel approved type1 nullmask = Ok (sel1, n1)
    /\ filterSelectionType Equals LessThan GreaterThan LessThanEquals
      GreaterThanEquals
      vec predicate2 sel1 n1 type2 nullmask = Ok (sel12, n)
    /\ filterSelectionType Equals LessThan GreaterThan LessThanEquals
      GreaterThanEquals
      vec predicate2 sel approved type2 nullmask = Ok (sel2, n2)
    /\ filterSelectionType Equals LessThan GreaterThan LessThanEquals
      GreaterThanEquals
      vec predicate1 sel2 n2 type1 nullmask = Ok (sel21, n)
    /\ sel_vector sel12 = sel_vector sel21
    /\ sel_vector sel12
       = List.filter (fun idx => keeps_row OP1 vec predicate1 nullmask idx
                                 && keeps_row OP2 vec predicate2 nullmask idx)
           (take approved (sel_vector sel))
    /\ n = length (sel_vector sel12).
Proof.
  intros Hop1 Hop2 Hlen Hin.
  set (rows := take approved (sel_vector sel)) in *.
  set (k1 := keeps_row OP1 vec predicate1 nullmask).
  set (k2 := keeps_row OP2 vec predicate2 nullmask).
  assert (Hagain : forall (k k' : nat -> bool) OP' predicate' type' cap,
            operator_of Equals LessThan GreaterThan LessThanEquals GreaterThanEquals
              type' = Some OP' ->
            k' = keeps_row OP' vec predicate' nullmask ->
            filterSelectionType Equals LessThan GreaterThan LessThanEquals
      GreaterThanEquals
      vec predicate' (mkSel (List.filter k rows) cap)
              (length (List.filter k rows)) type' nullmask
            = Ok (mkSel (List.filter k' (List.filter k rows))
                    (length (List.filter k rows)),
                  length (List.filter k' (List.filter k rows)))).
  { intros k k' OP' predicate' type' cap Hop' ->.
    rewrite (filterSelectionType_runs vec predicate' _ _ type' nullmask OP' Hop');
      cbn [sel_vector]; rewrite ?firstn_all; try done.
    by apply filter_in_bounds. }
  eexists _, _, _, _, _, _, _. split_and!.
  - by apply (filterSelectionType_runs vec predicate1 sel approved type1 nullmask OP1).
  - by apply (Hagain k1 k2 OP2 predicate2 type2).
  - by apply (filterSelectionType_runs vec predicate2 sel approved type2 nullmask OP2).
  - fold rows. fold k2. rewrite (Hagain k2 k1 OP1 predicate1 type1) by done.
    by rewrite (filter_filter_comm k1 k2).
  - done.
  - cbn [sel_vector]. fold rows k1 k2. apply filter_filter_and.
  - done.
Qed.

Lemma filter_filter_idem {A} (f : A -> bool) (l : list A) :
  List.filter f (List.filter f l) = List.filter f l.
Proof.
  induction l as [| a l IH]; [done |]. simpl.
  destruct (f a) eqn:Hf; simpl; rewrite ?Hf, IH; done.
Qed.

(** X19. Applying a filter a second time changes nothing: the rows and
    the count stay what the first application left. *)
Theorem filterSelectionType_idempotent
    vec predicate sel approved comparison_type nullmask OP :
  operator_of Equals LessThan GreaterThan LessThanEquals GreaterThanEquals
    comparison_type = Some OP ->
  (approved <= length (sel_vector sel))%nat ->
  in_bounds vec nullmask (take approved (sel_vector sel)) ->
  exists sel1 n1 sel2,
    filterSelectionType Equals LessThan GreaterThan LessThanEquals
      GreaterThanEquals
      vec predicate sel approved comparison_type nullmask
    = Ok (sel1, n1)
    /\ filterSelectionType Equals LessThan GreaterThan LessThanEquals
      GreaterThanEquals
      vec predicate sel1 n1 comparison_type nullmask
       = Ok (sel2, n1)
    /\ sel_vector sel2 = sel_vector sel1.
Proof.
  intros Hop Hlen Hin. eexists _, _, _. split_and!.
  - by apply (filterSelectionType_runs vec predicate sel approved
                comparison_type nullmask OP).
  - rewrite (filterSelectionType_runs vec predicate _ _ comparison_type
               nullmask OP Hop); cbn [sel_vector]; rewrite ?firstn_all;
      [| done | by apply filter_in_bounds].
    by rewrite !filter_filter_idem.
  - done.
Qed.

(** X20. [filterSelectionType] throws only for a comparison type it does
    not know, and then always, whatever the arrays hold: the exception
    is [NotImplementedException], raised exactly when the comparison
    type is none of equal, less than, greater than, less than or equal,
    greater than or equal. *)
Theorem filterSelectionType_raises_iff_unknown
    vec predicate sel approved comparison_type nullmask :
  (exists e,
     filterSelectionType Equals LessThan GreaterThan LessThanEquals
       GreaterThanEquals vec predicate sel approved comparison_type nullmask
     = Raise e)
  <-> operator_of Equals LessThan GreaterThan LessThanEquals GreaterThanEquals
        comparison_type = None.
Proof.
  assert (Hrun : forall OP e,
            match (if negb (any nullmask) then
                     filter_selection_loop OP false vec predicate sel approved
                       nullmask (new_selection approved)
                   else
                     filter_selection_loop OP true vec predicate sel approved
                       nullmask (new_selection approved))
            with
            | Ok (count, new_sel') => Ok (new_sel', count)
            | Raise e => Raise e
            | Unspecified => Unspecified
            end <> Raise e).
  { intros OP e. unfold filter_selection_loop.
    destruct (any nullmask); simpl;
      match goal with
      | |- context [selection_loop ?a ?b ?c ?d ?f ?g ?h ?i ?j ?k] =>
          pose proof (selection_loop_never_raises a c d g b f) as Hnever;
          destruct (selection_loop a b c d f g h i j k) as [[] | e' |] eqn:Hl;
          try done; by destruct (Hnever e' h i j k)
      end. }
  unfold filterSelectionType.
  split.
  - intros [e He]. destruct comparison_type; try done; by destruct (Hrun _ _ He).
  - intros Hnone. destruct comparison_type; try done; eauto.
Qed.

End Filters.

Lemma filterSelectionType_keeps_matching_rows_witness :
  exists sel' approved',
    filterSelectionType Z.eqb Z.ltb Z.gtb Z.leb Z.geb four_values 15 all_four 4
      COMPARE_GREATERTHAN second_null = Ok (sel', approved')
    /\ sel_vector sel'
       = List.filter (keeps_row Z.gtb four_values 15 second_null)
           (take 4 (sel_vector all_four))
    /\ approved' = length (sel_vector sel')
    /\ (approved' <= 4)%nat
    /\ (approved' <= capacity sel')%nat.
Proof.
  apply (filterSelectionType_keeps_matching_rows Z.eqb Z.ltb Z.gtb Z.leb Z.geb
           four_values 15 all_four 4 COMPARE_GREATERTHAN second_null Z.gtb).
  - reflexivity.
  - simpl. lia.
  - repeat constructor; simpl; lia.
Defined.

Lemma filterSelectionType_order_irrelevant_witness :
  exists sel1 n1 sel2 n2 sel12 sel21 n,
    filterSelectionType Z.eqb Z.ltb Z.gtb Z.leb Z.geb four_values 15 all_four 4
      COMPARE_GREATERTHAN second_null = Ok (sel1, n1)
    /\ filterSelectionType Z.eqb Z.ltb Z.gtb Z.leb Z.geb four_values 40 sel1 n1
         COMPARE_LESSTHAN second_null = Ok (sel12, n)
    /\ filterSelectionType Z.eqb Z.ltb Z.gtb Z.leb Z.geb four_values 40 all_four 4
         COMPARE_LESSTHAN second_null = Ok (sel2, n2)
    /\ filterSelectionType Z.eqb Z.ltb Z.gtb Z.leb Z.geb four_values 15 sel2 n2
         COMPARE_GREATERTHAN second_null = Ok (sel21, n)
    /\ sel_vector sel12 = sel_vector sel21
    /\ sel_vector sel12
       = List.filter (fun idx => keeps_row Z.gtb four_values 15 second_null idx
                                 && keeps_row Z.ltb four_values 40 second_null idx)
           (take 4 (sel_vector all_four))
    /\ n = length (sel_vector sel12).
Proof.
  apply (filterSelectionType_order_irrelevant Z.eqb Z.ltb Z.gtb Z.leb Z.geb
           four_values all_four 4 second_null COMPARE_GREATERTHAN Z.gtb 15
           COMPARE_LESSTHAN Z.ltb 40).
  - reflexivity.
  - reflexivity.
  - simpl. lia.
  - repeat constructor; simpl; lia.
Defined.

Lemma filterSelectionType_idempotent_witness :
  exists sel1 n1 sel2,
    filterSelectionType Z.eqb Z.ltb Z.gtb Z.leb Z.geb four_values 15 all_four 4
      COMPARE_GREATERTHAN second_null = Ok (sel1, n1)
    /\ filterSelectionType Z.eqb Z.ltb Z.gtb Z.leb Z.geb four_values 15 sel1 n1
         COMPARE_GREATERTHAN second_null = Ok (sel2, n1)
    /\ sel_vector sel2 = sel_vector sel1.
Proof.
  apply (filterSelectionType_idempotent Z.eqb Z.ltb Z.gtb Z.leb Z.geb
           four_values 15 all_four 4 COMPARE_GREATERTHAN second_null Z.gtb).
  - reflexivity.
  - simpl. lia.
  - repeat constructor; simpl; lia.
Defined.

End FilterFacts.
